(** * Configuration translation: value codec, key paths, tree merge

    A shallow embedding of [packages/python/translate.py]: the conversion
    between Tcl-style textual values and nested Python values, the nested
    dictionary helpers, the deep merge of configuration dictionaries and
    the aggregation of several configuration sources.

    Modelling conventions.
    - A Python [str] is a [string]; a character is its code point, and the
      development covers the code points below 256.
    - A Python value held in a configuration is a [Value]: a string or a
      list of values.
    - A Python [dict] is an association list in insertion order, with the
      lookup and assignment of Python dictionaries ([dict_get],
      [dict_set]); a nested configuration is a [node].
    - A function that can raise returns the exception in place of its
      result; a function modelled with fuel returns [None] when the fuel
      runs out. In-place mutation is modelled on an explicit store of
      dictionary objects in Module [Store]. *)

From Stdlib Require Import String Ascii List Bool Arith ZArith Lia.
From Stdlib Require Import Sorting.Sorted Sorting.Permutation.
From Stdlib Require Import Structures.OrdersEx.
From stdpp Require Import base option gmap.
Import ListNotations.

Set Warnings "-register-all".

Local Open Scope string_scope.
Local Open Scope list_scope.

(** ** Python string primitives *)

Module PyStr.

(** The double-quote character, and the two-character text of an empty
    Tcl value. *)
Definition dquote : ascii := ascii_of_nat 34.
Definition empty_repr : string := String dquote (String dquote EmptyString).

Definition lbrace : ascii := "{"%char.
Definition rbrace : ascii := "}"%char.
Definition space : ascii := " "%char.
Definition comma : ascii := ","%char.

(** [str.isspace] on one character (code points below 256): TAB, LF, VT,
    FF, CR, the separators FS, GS, RS, US, the space, NEL and NBSP. *)
Definition isspace (c : ascii) : bool :=
  let n := nat_of_ascii c in
  (((9 <=? n) && (n <=? 13)) || ((28 <=? n) && (n <=? 31))
   || (n =? 32) || (n =? 133) || (n =? 160))%nat.

(** [c in s] for a one-character [c]. *)
Fixpoint contains (c : ascii) (s : string) : bool :=
  match s with
  | EmptyString => false
  | String a s' => Ascii.eqb a c || contains c s'
  end.

(** [s.startswith(c)] and [s.endswith(c)] for a one-character [c]. *)
Definition startswith (c : ascii) (s : string) : bool :=
  match s with
  | EmptyString => false
  | String a _ => Ascii.eqb a c
  end.

Fixpoint endswith (c : ascii) (s : string) : bool :=
  match s with
  | EmptyString => false
  | String a EmptyString => Ascii.eqb a c
  | String _ s' => endswith c s'
  end.

(** [bool(s)]: a string is true when it is not empty. *)
Definition nonempty (s : string) : bool :=
  match s with EmptyString => false | _ => true end.

Fixpoint lstrip (s : string) : string :=
  match s with
  | EmptyString => EmptyString
  | String a s' => if isspace a then lstrip s' else s
  end.

Fixpoint rstrip (s : string) : string :=
  match s with
  | EmptyString => EmptyString
  | String a s' =>
      let r := rstrip s' in
      if isspace a && negb (nonempty r) then EmptyString else String a r
  end.

(** [s.strip()] *)
Definition strip (s : string) : string := rstrip (lstrip s).

(** [''.join(chars)] for a list of one-character strings. *)
Definition join_chars (chars : list ascii) : string :=
  string_of_list_ascii chars.

(** [sep.join(parts)] *)
Definition join (sep : string) (parts : list string) : string :=
  String.concat sep parts.

(** [s.split()]: the maximal runs of non-whitespace characters. [cur]
    is the run being read, in reverse. *)
Fixpoint split_ws_aux (s : string) (cur : list ascii) : list string :=
  match s with
  | EmptyString =>
      match cur with
      | [] => []
      | _ => [string_of_list_ascii (rev cur)]
      end
  | String a s' =>
      if isspace a then
        match cur with
        | [] => split_ws_aux s' []
        | _ => string_of_list_ascii (rev cur) :: split_ws_aux s' []
        end
      else split_ws_aux s' (a :: cur)
  end.

Definition split_ws (s : string) : list string := split_ws_aux s [].

(** [s.split(c)] for a one-character separator: every field, empty ones
    included; the result is never empty. *)
Fixpoint split_on_aux (c : ascii) (s : string) (cur : list ascii)
  : list string :=
  match s with
  | EmptyString => [string_of_list_ascii (rev cur)]
  | String a s' =>
      if Ascii.eqb a c
      then string_of_list_ascii (rev cur) :: split_on_aux c s' []
      else split_on_aux c s' (a :: cur)
  end.

Definition split_on (c : ascii) (s : string) : list string :=
  split_on_aux c s [].

End PyStr.

Import PyStr.

(** ** Values *)

(** A configuration value: a string, or a list of values. *)
Inductive Value : Type :=
| Scalar (text : string)
| VList (items : list Value).

(** ** tcl_value2python_value *)

(** [result.append(''.join(current).strip())] when [current] is not empty. *)
Definition flush (result : list Value) (current : list ascii) : list Value :=
  match current with
  | [] => result
  | _ => result ++ [Scalar (strip (join_chars current))]
  end.

(** The [while] loop of [parse_list]: [s] is the text, [i] the index,
    [result] and [current] the two accumulators. One unit of [fuel] is
    spent per iteration and per nested call. *)
Fixpoint parse_list_loop (fuel : nat) (s : string) (i : nat)
    (result : list Value) (current : list ascii)
  : option (list Value * nat) :=
  match fuel with
  | O => None
  | S fuel' =>
      if (i <? String.length s)%nat then
        match String.get i s with
        | None => None
        | Some c =>
            if Ascii.eqb c lbrace then
              match parse_list_loop fuel' s (i + 1) [] [] with
              | None => None
              | Some (nested_list, new_i) =>
                  parse_list_loop fuel' s (new_i + 1)
                    (flush result current ++ [VList nested_list]) []
              end
            else if Ascii.eqb c rbrace then
              Some (flush result current, i + 1)
            else if Ascii.eqb c space
                    && match current with [] => false | _ => true end then
              parse_list_loop fuel' s (i + 1)
                (result ++ [Scalar (strip (join_chars current))]) []
            else
              parse_list_loop fuel' s (i + 1) result (current ++ [c])
        end
      else Some (flush result current, i)
  end.

(** [parse_list(s, start)], run with fuel that always suffices
    ([parse_list_loop_total]) and that does not influence the result
    ([parse_list_loop_fuel_mono]). The nested calls are not bounded in
    depth here: [parse_list_loop_limited] adds the recursion limit of the
    interpreter. *)
Definition parse_list (s : string) (start : nat) : option (list Value * nat) :=
  parse_list_loop (S (String.length s)) s start [] [].

(** [tcl_value2python_value(value)] for a [str] argument. *)
Definition tcl_value2python_value (value : string) : option Value :=
  let value := strip value in
  if negb (nonempty value) then Some (Scalar "")
  else if negb (contains lbrace value) && negb (contains rbrace value) then
    Some (Scalar value)
  else if startswith lbrace value && endswith rbrace value then
    match parse_list value 1 with
    | Some (result, _) => Some (VList result)
    | None => None
    end
  else
    match parse_list value 0 with
    | Some (result, _) => Some (VList result)
    | None => None
    end.

(** ** python_value2tcl_value *)

(** The [for char in value] loop of the branch for a string that holds a
    brace: [parts], [current] and [brace_level] are its three variables, and
    the result is the text returned after the loop. *)
Fixpoint render_braces_loop (value : string) (parts : list string)
    (current : string) (brace_level : Z) : string :=
  match value with
  | EmptyString =>
      let parts :=
        if nonempty (strip current)
        then parts ++ split_ws (strip current) else parts in
      ("[list " ++ join " " parts ++ "]")%string
  | String char rest =>
      if Ascii.eqb char lbrace then
        let '(parts, current) :=
          if (brace_level =? 0)%Z && nonempty current
          then (parts ++ split_ws (strip current), "")
          else (parts, current) in
        render_braces_loop rest parts (current ++ String char "")%string
          (brace_level + 1)%Z
      else if Ascii.eqb char rbrace then
        let brace_level := (brace_level - 1)%Z in
        if (brace_level =? 0)%Z then
          let inner_content := strip current in
          let parts :=
            if nonempty inner_content
            then parts ++ [("[list " ++ join " " (split_ws inner_content) ++ "]")%string]
            else parts in
          render_braces_loop rest parts "" brace_level
        else
          render_braces_loop rest parts (current ++ String char "")%string brace_level
      else
        render_braces_loop rest parts (current ++ String char "")%string brace_level
  end.

(** The text of one element of a list, as the [for item in value] loop
    computes it; [render] is the function applied to a nested list. *)
Definition render_item (render : Value -> string) (item : Value) : string :=
  match item with
  | VList _ => render item
  | Scalar t =>
      if contains space t || contains lbrace t || contains rbrace t
      then ("{" ++ t ++ "}")%string
      else if negb (nonempty t) then empty_repr
      else t
  end.

(** [python_value2tcl_value(value)] *)
Fixpoint python_value2tcl_value (value : Value) : string :=
  match value with
  | Scalar s =>
      if negb (nonempty s) then empty_repr
      else if contains lbrace s || contains rbrace s then
        render_braces_loop s [] "" 0%Z
      else if contains space s then ("[list " ++ s ++ "]")%string
      else s
  | VList [] => empty_repr
  | VList items =>
      ("[list " ++ join " " (map (render_item python_value2tcl_value) items)
       ++ "]")%string
  end.

(** The text that follows an element inside a rendered list: the elements
    still to come, each behind a space, and the closing bracket. *)
Definition list_tail_text (rest : list Value) : string :=
  match rest with
  | [] => "]"
  | _ =>
      (" " ++ join " " (map (render_item python_value2tcl_value) rest)
       ++ "]")%string
  end.

(** ** Dictionaries and nested configurations *)

Section Dict.
Context {V : Type}.

(** [d.get(key)]: the entry of [key], if any. *)
Fixpoint dict_get (key : string) (d : list (string * V)) : option V :=
  match d with
  | [] => None
  | (k, v) :: rest => if String.eqb k key then Some v else dict_get key rest
  end.

(** [key in d] *)
Definition dict_has (key : string) (d : list (string * V)) : bool :=
  match dict_get key d with Some _ => true | None => false end.

(** [d[key] = v]: an existing key keeps its place, a new key goes last. *)
Fixpoint dict_set (key : string) (v : V) (d : list (string * V))
  : list (string * V) :=
  match d with
  | [] => [(key, v)]
  | (k, x) :: rest =>
      if String.eqb k key then (k, v) :: rest
      else (k, x) :: dict_set key v rest
  end.

(** The keys of a dictionary are pairwise distinct. *)
Definition dict_wf (d : list (string * V)) : Prop :=
  List.NoDup (map fst d).
End Dict.

(** What a key of a configuration holds: a terminal value or a nested
    dictionary. *)
Inductive node (A : Type) : Type :=
| Leaf (a : A)
| Dict (items : list (string * node A)).
Arguments Leaf {A} a.
Arguments Dict {A} items.

(** A configuration dictionary. *)
Definition tree (A : Type) : Type := list (string * node A).

Section Merge.
Context {A : Type}.

(** One pass of the loop [for key, value in dict2.items()] of
    [merge_dicts], [merge] being [merge_dicts] on the nested
    dictionaries. *)
Definition merge_step (merge : tree A -> node A -> tree A)
    (overwrite : bool) (result : tree A) (item : string * node A)
  : tree A :=
  let '(key, value) := item in
  match dict_get key result, value with
  | Some (Dict sub), Dict _ => dict_set key (Dict (merge sub value)) result
  | Some _, _ => if overwrite then dict_set key value result else result
  | None, _ => dict_set key value result
  end.

(** [merge_dicts(dict1, dict2, overwrite)], [dict2] given as the node
    that holds it. *)
Fixpoint merge_node (overwrite : bool) (dict1 : tree A) (dict2 : node A)
    {struct dict2} : tree A :=
  match dict2 with
  | Leaf _ => dict1
  | Dict items =>
      fold_left
        (merge_step (fun sub value => merge_node overwrite sub value)
           overwrite)
        items dict1
  end.

(** [merge_dicts(dict1, dict2, overwrite)] *)
Definition merge_dicts (dict1 dict2 : tree A) (overwrite : bool) : tree A :=
  merge_node overwrite dict1 (Dict dict2).

(** What one item of the second dictionary does to the result: the body
    of the loop of [merge_dicts]. *)
Definition merge_item (overwrite : bool) (result : tree A)
    (key : string) (value : node A) : tree A :=
  match dict_get key result, value with
  | Some (Dict sub), Dict sub2 =>
      dict_set key (Dict (merge_dicts sub sub2 overwrite)) result
  | Some _, _ => if overwrite then dict_set key value result else result
  | None, _ => dict_set key value result
  end.

(** Exceptions of [set_nested_dict]. *)
Inductive exn : Type := IndexError | AttributeError | TypeError.

(** [set_nested_dict(d, keys, value)]: the dictionary [d] after the call,
    or the exception raised. [current.setdefault(key, {})] yields the
    entry of [key], created empty when missing; on a terminal value the
    next [setdefault] raises [AttributeError], and the final item
    assignment raises [TypeError]. *)
Fixpoint set_nested_dict (d : tree A) (keys : list string) (value : node A)
  : exn + tree A :=
  match keys with
  | [] => inl IndexError
  | [last] => inr (dict_set last value d)
  | key :: (_ :: more) as rest =>
      match dict_get key d with
      | None =>
          match set_nested_dict [] rest value with
          | inr sub => inr (dict_set key (Dict sub) d)
          | inl e => inl e
          end
      | Some (Dict current) =>
          match set_nested_dict current rest value with
          | inr sub => inr (dict_set key (Dict sub) d)
          | inl e => inl e
          end
      | Some (Leaf _) =>
          inl (match more with [] => TypeError | _ => AttributeError end)
      end
  end.

(** The entry that a key path reaches. *)
Fixpoint lookup_path (d : tree A) (keys : list string) : option (node A) :=
  match keys with
  | [] => None
  | [last] => dict_get last d
  | key :: rest =>
      match dict_get key d with
      | Some (Dict sub) => lookup_path sub rest
      | _ => None
      end
  end.
End Merge.

(** ** dict_to_tcl *)

(** The order of Python strings: lexicographic on code points. *)
Definition str_ltb (a b : string) : bool :=
  match String_as_OT.compare a b with Lt => true | _ => false end.

Definition str_le (a b : string) : Prop := str_ltb b a = false.

(** [sorted(lines)]: a stable insertion sort, every line placed behind the
    lines that are not greater. [sorted_unique] shows that no other sorting
    procedure can give another list. *)
Fixpoint insert_line (x : string) (l : list string) : list string :=
  match l with
  | [] => [x]
  | y :: rest => if str_ltb x y then x :: l else y :: insert_line x rest
  end.

Definition sorted (lines : list string) : list string :=
  fold_left (fun acc x => insert_line x acc) lines [].

(** [f'{prefix},{key}' if prefix else key] *)
Definition child_name (prefix key : string) : string :=
  if nonempty prefix then (prefix ++ "," ++ key)%string else key.

(** The name written for the variable at [prefix], [key]: a name with a
    comma becomes a Tcl array element. *)
Definition var_name_of (prefix key : string) : string :=
  let var_name := child_name prefix key in
  if contains comma var_name then
    let parts := split_on comma var_name in
    (hd "" parts ++ "(" ++ join "," (tl parts) ++ ")")%string
  else var_name.

(** The lines that the loop of [process_dict] adds for one item of the
    dictionary. *)
Fixpoint process_item (prefix key : string) (value : node Value)
    {struct value} : list string :=
  match value with
  | Dict items =>
      sorted
        (flat_map
           (fun kv => process_item (child_name prefix key) (fst kv) (snd kv))
           items)
  | Leaf v =>
      [("set " ++ var_name_of prefix key ++ " "
        ++ python_value2tcl_value v)%string]
  end.

(** [process_dict(d, prefix)] *)
Definition process_dict (d : tree Value) (prefix : string) : list string :=
  sorted (flat_map (fun kv => process_item prefix (fst kv) (snd kv)) d).

(** What [dict_to_tcl] writes to the file, one entry per call of
    [f.write]. *)
Inductive written : Type :=
| WHeader
| WSourceItem (source_name : string)
| WBlank
| WBanner (source_name : string)
| WLines (tcl_lines : list string).

(** The loop over the sources of [dict_to_tcl]: the writes made, and
    whether the loop ended with an exception (a source that is not a
    dictionary has no [items]). *)
Fixpoint write_sources (data : tree Value) : list written * option exn :=
  match data with
  | [] => ([], None)
  | (source_name, Dict source_dict) :: rest =>
      let '(ws, e) := write_sources rest in
      (WBanner source_name :: WLines (process_dict source_dict "") :: ws, e)
  | (source_name, Leaf _) :: _ => ([WBanner source_name], Some AttributeError)
  end.

(** [dict_to_tcl(data, tcl_file, with_source)]: the writes to [tcl_file]
    in order, and the exception raised again to the caller, if any. *)
Definition dict_to_tcl (data : tree Value) (with_source : bool)
  : list written * option exn :=
  if with_source then
    let '(ws, e) := write_sources data in
    ([WHeader] ++ map (fun kv => WSourceItem (fst kv)) data ++ [WBlank] ++ ws, e)
  else ([WLines (process_dict data "")], None).

(** ** process_config_inputs *)

(** An element of [inputs]: a dictionary or a file path. *)
Inductive config_input (A : Type) : Type :=
| InDict (d : tree A)
| InFile (path : string).
Arguments InDict {A} d.
Arguments InFile {A} path.

Section Aggregate.
Context {A : Type}.

(** The readers of configuration files and the lower-cased extension of
    a path are outside this development: a reader gives the dictionary
    read, or [None] when it raises. *)
Variable tcl_to_dict : string -> option (tree A).
Variable yaml_to_dict : string -> option (tree A).
Variable ext_lower : string -> string.

(** The label of the dictionary input at index [i] of [n] inputs. *)
Definition source_name_of (i n : nat) : string :=
  let source_name := "Appendix info apply" in
  let source_name := if (i =? 0)%nat then "Basic Appendix info" else source_name in
  let source_name :=
    if (i =? n - 1)%nat then "Fixed Appendix info" else source_name in
  source_name.

(** One pass of the loop [for i, input_item in enumerate(inputs)] over
    the state [(merged_dict, source_dicts)]; [n] is [len(inputs)]. An
    input that is skipped, or whose reader raises, leaves the state as it
    is. *)
Definition process_input (n i : nat)
    (st : tree A * list (string * tree A)) (input_item : config_input A)
  : tree A * list (string * tree A) :=
  let '(merged_dict, source_dicts) := st in
  let read :=
    match input_item with
    | InDict current_dict => Some (current_dict, source_name_of i n)
    | InFile path =>
        let ext := ext_lower path in
        if String.eqb ext ".tcl" then
          match tcl_to_dict path with
          | Some current_dict => Some (current_dict, path)
          | None => None
          end
        else if String.eqb ext ".yaml" || String.eqb ext ".yml" then
          match yaml_to_dict path with
          | Some current_dict => Some (current_dict, path)
          | None => None
          end
        else None
    end in
  match read with
  | None => st
  | Some (current_dict, source_name) =>
      (match merged_dict with
       | [] => current_dict
       | _ => merge_dicts merged_dict current_dict true
       end,
       dict_set source_name current_dict source_dicts)
  end.

Fixpoint process_loop (n i : nat) (inputs : list (config_input A))
    (st : tree A * list (string * tree A))
  : tree A * list (string * tree A) :=
  match inputs with
  | [] => st
  | input_item :: rest =>
      process_loop n (S i) rest (process_input n i st input_item)
  end.

(** [process_config_inputs(inputs)], no output file given: the merged
    dictionary and the dictionary of every source. *)
Definition process_config_inputs (inputs : list (config_input A))
  : tree A * list (string * tree A) :=
  process_loop (length inputs) 0 inputs ([], []).
End Aggregate.

(** ** merge_dicts on a store of dictionary objects

    Python dictionaries are objects: [merge_dicts] receives two references,
    copies the first dictionary into a new object and assigns into that
    copy. The store below keeps every dictionary object at a location, an
    entry of a dictionary being a terminal value or a reference. *)

Module Store.

(** A location of the store. *)
Abbreviation loc := nat.

(** The entry of a key: a terminal value, or a reference to a dictionary. *)
Inductive val (A : Type) : Type :=
| VLeaf (a : A)
| VRef (l : loc).
Arguments VLeaf {A} a.
Arguments VRef {A} l.

(** A dictionary object; a store of dictionary objects. *)
Abbreviation obj A := (list (string * val A)).
Abbreviation store A := (gmap loc (obj A)).

Section Store.
Context {A : Type}.

(** The loop [for key, value in dict2.items()] over the items of
    [dict2], [result] being the location of the copy; [merge] is the
    recursive call. Every assignment is made to the object at [result]. *)
Fixpoint merge_loop (merge : store A -> loc -> loc -> option (store A * loc))
    (overwrite : bool) (result : loc) (items : obj A) (h : store A)
  : option (store A) :=
  match items with
  | [] => Some h
  | (key, value) :: rest =>
      match h !! result with
      | None => None
      | Some r =>
          match dict_get key r, value with
          | Some (VRef sub), VRef sub2 =>
              match merge h sub sub2 with
              | None => None
              | Some (h', merged) =>
                  match h' !! result with
                  | None => None
                  | Some r' =>
                      merge_loop merge overwrite result rest
                        (<[result := dict_set key (VRef merged) r']> h')
                  end
              end
          | Some _, _ =>
              if overwrite
              then merge_loop merge overwrite result rest
                     (<[result := dict_set key value r]> h)
              else merge_loop merge overwrite result rest h
          | None, _ =>
              merge_loop merge overwrite result rest
                (<[result := dict_set key value r]> h)
          end
      end
  end.

(** [merge_dicts(dict1, dict2, overwrite)] on references: the store after
    the call and the reference returned. [dict1.copy()] allocates a new
    object with the entries of [dict1]; one unit of [fuel] is spent per
    call. *)
Fixpoint merge_dicts (fuel : nat) (h : store A) (dict1 dict2 : loc)
    (overwrite : bool) : option (store A * loc) :=
  match fuel with
  | O => None
  | S fuel' =>
      match h !! dict1, h !! dict2 with
      | Some d1, Some d2 =>
          let result := fresh (dom h) in
          match merge_loop
                  (fun h a b => merge_dicts fuel' h a b overwrite)
                  overwrite result d2 (<[result := d1]> h) with
          | Some h' => Some (h', result)
          | None => None
          end
      | _, _ => None
      end
  end.

(** The object graph under a value of the store is the configuration
    [n]. *)
Fixpoint repr (h : store A) (n : node A) (v : val A) {struct n} : Prop :=
  match n with
  | Leaf a => v = VLeaf a
  | Dict items =>
      exists l d, v = VRef l /\ h !! l = Some d /\
        (fix repr_items (items : tree A) (d : obj A) {struct items} : Prop :=
           match items, d with
           | [], [] => True
           | (k, n') :: items', (k', v') :: d' =>
               k = k' /\ repr h n' v' /\ repr_items items' d'
           | _, _ => False
           end) items d
  end.

Fixpoint repr_items (h : store A) (items : tree A) (d : obj A) : Prop :=
  match items, d with
  | [], [] => True
  | (k, n') :: items', (k', v') :: d' =>
      k = k' /\ repr h n' v' /\ repr_items h items' d'
  | _, _ => False
  end.

(** The dictionary object at [l] is the configuration [t]. *)
Definition repr_dict (h : store A) (t : tree A) (l : loc) : Prop :=
  exists d, h !! l = Some d /\ repr_items h t d.

(** The nesting depth of a configuration. *)
Fixpoint node_depth (n : node A) : nat :=
  match n with
  | Leaf _ => 0
  | Dict items =>
      S (fold_right (fun kv m => Nat.max (node_depth (snd kv)) m) 0 items)
  end.

Definition tree_depth (t : tree A) : nat :=
  fold_right (fun kv m => Nat.max (node_depth (snd kv)) m) 0 t.

End Store.
End Store.

(** ** Well-formed configurations *)

(** The keys of a configuration are pairwise distinct at every level, as
    they are in nested Python dictionaries. *)
Fixpoint node_wf {A : Type} (n : node A) : Prop :=
  match n with
  | Leaf _ => True
  | Dict items =>
      List.NoDup (map fst items) /\
      (fix all_wf (items : tree A) : Prop :=
         match items with
         | [] => True
         | (_, n') :: items' => node_wf n' /\ all_wf items'
         end) items
  end.

Definition tree_wf {A : Type} (t : tree A) : Prop := node_wf (Dict t).

(** ** dict_to_tcl_with_source *)

(** The lines that the loop of the [process_dict] of
    [dict_to_tcl_with_source] adds for one item: the same statements as in
    [dict_to_tcl], without the sorting. *)
Fixpoint process_item_with_source (prefix key : string) (value : node Value)
    {struct value} : list string :=
  match value with
  | Dict items =>
      flat_map
        (fun kv =>
           process_item_with_source (child_name prefix key) (fst kv) (snd kv))
        items
  | Leaf v =>
      [("set " ++ var_name_of prefix key ++ " "
        ++ python_value2tcl_value v)%string]
  end.

(** [process_dict(d, prefix)] of [dict_to_tcl_with_source] *)
Definition process_dict_with_source (d : tree Value) (prefix : string)
  : list string :=
  flat_map (fun kv => process_item_with_source prefix (fst kv) (snd kv)) d.

(** The loop over the sources of [dict_to_tcl_with_source]. *)
Fixpoint write_sources_with_source (data : tree Value)
  : list written * option exn :=
  match data with
  | [] => ([], None)
  | (source_name, Dict source_dict) :: rest =>
      let '(ws, e) := write_sources_with_source rest in
      (WBanner source_name
         :: WLines (process_dict_with_source source_dict "") :: ws, e)
  | (source_name, Leaf _) :: _ => ([WBanner source_name], Some AttributeError)
  end.

(** [dict_to_tcl_with_source(data, output_file)]: the writes to the file in
    order, and the exception raised again to the caller, if any. *)
Definition dict_to_tcl_with_source (data : tree Value)
  : list written * option exn :=
  let '(ws, e) := write_sources_with_source data in
  ([WHeader] ++ map (fun kv => WSourceItem (fst kv)) data ++ [WBlank] ++ ws, e).

(** ** tcl_to_dict *)

(** What the Tcl interpreter holds for a user variable after the file is
    sourced: the text of a plain variable, or the elements of an array, each
    a key and its text. A text is [None] when reading it raises. *)
Inductive tcl_var : Type :=
| TclScalar (value : option string)
| TclArray (elements : list (string * option string)).

(** [[k.strip() for k in key.split(',')]] *)
Definition key_parts (key : string) : list string :=
  map strip (split_on comma key).

(** The loop [for key in array_keys] of [tcl_to_dict] for the array [var],
    on the dictionary [result] built so far. An exception (a text that
    cannot be read, a key path through a terminal value) ends the loop: the
    handler of the variable prints and goes on with the next variable. *)
Fixpoint fill_array (var : string) (result : tree Value)
    (elements : list (string * option string)) : tree Value :=
  match elements with
  | [] => result
  | (key, text) :: rest =>
      match text with
      | None => result
      | Some text =>
          match tcl_value2python_value text with
          | None => result
          | Some value =>
              let result :=
                if dict_has var result then result
                else dict_set var (Dict []) result in
              match dict_get var result with
              | Some (Dict d) =>
                  match set_nested_dict d (key_parts key) (Leaf value) with
                  | inr d' => fill_array var (dict_set var (Dict d') result) rest
                  | inl _ => result
                  end
              | _ => result
              end
          end
      end
  end.

(** One pass of the loop [for var in user_vars] of [tcl_to_dict]. *)
Definition read_var (result : tree Value) (item : string * tcl_var)
  : tree Value :=
  let '(var, content) := item in
  match content with
  | TclArray elements => fill_array var result elements
  | TclScalar None => result
  | TclScalar (Some text) =>
      match tcl_value2python_value text with
      | Some value => dict_set var (Leaf value) result
      | None => result
      end
  end.

(** [tcl_to_dict(file_path)], given the user variables that the interpreter
    holds after sourcing the file, in the order the loop visits them. *)
Definition tcl_to_dict (user_vars : list (string * tcl_var)) : tree Value :=
  fold_left read_var user_vars [].

(** ** Configurations up to the order of their keys *)

(** Two configurations hold the same entries, the keys of every dictionary
    in any order. *)
Inductive config_perm {A : Type} : node A -> node A -> Prop :=
| cp_leaf (a : A) : config_perm (Leaf a) (Leaf a)
| cp_dict (items items' items'' : tree A) :
    Permutation items items' -> items_perm items' items'' ->
    config_perm (Dict items) (Dict items'')
with items_perm {A : Type} : tree A -> tree A -> Prop :=
| ip_nil : items_perm [] []
| ip_cons (k : string) (n n' : node A) (t t' : tree A) :
    config_perm n n' -> items_perm t t' ->
    items_perm ((k, n) :: t) ((k, n') :: t').

(** ** The inputs that process_config_inputs reads *)

Section Read.
Context {A : Type}.
Variable tcl_to_dict : string -> option (tree A).
Variable yaml_to_dict : string -> option (tree A).
Variable ext_lower : string -> string.

(** The dictionary that the loop of [process_config_inputs] obtains for an
    input, [None] when the input is skipped. *)
Definition input_dict (input_item : config_input A) : option (tree A) :=
  match input_item with
  | InDict current_dict => Some current_dict
  | InFile path =>
      let ext := ext_lower path in
      if String.eqb ext ".tcl" then tcl_to_dict path
      else if String.eqb ext ".yaml" || String.eqb ext ".yml"
           then yaml_to_dict path
      else None
  end.
End Read.

(** Two key paths of which none starts the other. *)
Definition incomparable (p q : list string) : Prop :=
  (forall r, q <> p ++ r) /\ (forall r, p <> q ++ r).

(** ** The bound on the nested calls of parse_list

    [parse_list] calls itself once for every opening brace that it reads,
    and the interpreter raises [RecursionError] when a call would exceed
    its recursion limit (a thousand calls of Python functions unless
    [sys.setrecursionlimit] changes it, the callers of
    [tcl_value2python_value] included). [parse_list_loop] leaves that
    bound out; here it is written out: [depth] is the number of nested
    calls of [parse_list] that the interpreter still allows below the
    running one. The bound counts the calls of [parse_list], the only
    Python function that the parser calls; the calls of built-in methods
    ([append], [join], [strip]) return before the next call opens and are
    not counted. *)

Inductive parse_error : Type :=
| RecursionError.

(** The loop of [parse_list] under the bound. An exception raised in a
    nested call leaves the running call as well. *)
Fixpoint parse_list_loop_limited (fuel depth : nat) (s : string) (i : nat)
    (result : list Value) (current : list ascii)
  : option (parse_error + list Value * nat) :=
  match fuel with
  | O => None
  | S fuel' =>
      if (i <? String.length s)%nat then
        match String.get i s with
        | None => None
        | Some c =>
            if Ascii.eqb c lbrace then
              match depth with
              | O => Some (inl RecursionError)
              | S depth' =>
                  match parse_list_loop_limited fuel' depth' s (i + 1) [] [] with
                  | None => None
                  | Some (inl e) => Some (inl e)
                  | Some (inr (nested_list, new_i)) =>
                      parse_list_loop_limited fuel' depth s (new_i + 1)
                        (flush result current ++ [VList nested_list]) []
                  end
              end
            else if Ascii.eqb c rbrace then
              Some (inr (flush result current, i + 1))
            else if Ascii.eqb c space
                    && match current with [] => false | _ => true end then
              parse_list_loop_limited fuel' depth s (i + 1)
                (result ++ [Scalar (strip (join_chars current))]) []
            else
              parse_list_loop_limited fuel' depth s (i + 1) result
                (current ++ [c])
        end
      else Some (inr (flush result current, i))
  end.

(** The outermost call [parse_list(value, start)] when the interpreter
    allows [limit] calls of [parse_list] in all: the call itself is one
    of them. *)
Definition parse_list_limited (limit : nat) (s : string) (start : nat)
  : option (parse_error + list Value * nat) :=
  match limit with
  | O => Some (inl RecursionError)
  | S depth => parse_list_loop_limited (S (String.length s)) depth s start [] []
  end.

(** [tcl_value2python_value(value)] for a [str] argument, run where the
    interpreter allows [limit] nested calls of [parse_list]. *)
Definition tcl_value2python_value_limited (limit : nat) (value : string)
  : option (parse_error + Value) :=
  let value := strip value in
  if negb (nonempty value) then Some (inr (Scalar ""))
  else if negb (contains lbrace value) && negb (contains rbrace value) then
    Some (inr (Scalar value))
  else if startswith lbrace value && endswith rbrace value then
    match parse_list_limited limit value 1 with
    | Some (inr (result, _)) => Some (inr (VList result))
    | Some (inl e) => Some (inl e)
    | None => None
    end
  else
    match parse_list_limited limit value 0 with
    | Some (inr (result, _)) => Some (inr (VList result))
    | Some (inl e) => Some (inl e)
    | None => None
    end.

(** The calls that a run of the loop of [parse_list] from the index [i]
    stacks below it, with the index it returns: the control flow of the
    loop without its accumulators. An opening brace starts a call, which
    may stack calls of its own; the loop goes on behind the index that
    the call returns, skipping one character; a closing brace ends the
    run. *)
Fixpoint call_depth_loop (fuel : nat) (s : string) (i : nat)
  : option (nat * nat) :=
  match fuel with
  | O => None
  | S fuel' =>
      if (i <? String.length s)%nat then
        match String.get i s with
        | None => None
        | Some c =>
            if Ascii.eqb c lbrace then
              match call_depth_loop fuel' s (i + 1) with
              | None => None
              | Some (nested_depth, new_i) =>
                  match call_depth_loop fuel' s (new_i + 1) with
                  | None => None
                  | Some (rest_depth, j) =>
                      Some (Nat.max (S nested_depth) rest_depth, j)
                  end
              end
            else if Ascii.eqb c rbrace then Some (0, i + 1)
            else call_depth_loop fuel' s (i + 1)
        end
      else Some (0, i)
  end.

(** The number of calls of [parse_list] that are open at once, at most,
    while [tcl_value2python_value(value)] runs: none for a text without
    braces, which is returned as it is. *)
Definition calls_needed (value : string) : nat :=
  let value := strip value in
  if negb (nonempty value) then 0
  else if negb (contains lbrace value) && negb (contains rbrace value) then 0
  else
    let start :=
      if startswith lbrace value && endswith rbrace value then 1 else 0 in
    match call_depth_loop (S (String.length value)) value start with
    | Some (nested_depth, _) => S nested_depth
    | None => 0
    end.

(** The text of [n] opening braces. *)
Definition lbraces (n : nat) : string :=
  string_of_list_ascii (repeat lbrace n).

(** * Properties *)

(** ** Strings *)

Lemma contains_lstrip (c : ascii) (s : string) :
  contains c s = false -> contains c (lstrip s) = false.
Proof.
  induction s as [| a s IH]; simpl; [easy |].
  intros H. apply orb_false_iff in H as [Ha Hs].
  destruct (isspace a); simpl; [auto | now rewrite Ha, Hs].
Qed.

Lemma contains_rstrip (c : ascii) (s : string) :
  contains c s = false -> contains c (rstrip s) = false.
Proof.
  induction s as [| a s IH]; simpl; [easy |].
  intros H. apply orb_false_iff in H as [Ha Hs].
  destruct (isspace a && negb (nonempty (rstrip s))); simpl; [easy |].
  now rewrite Ha, IH.
Qed.

Lemma contains_strip (c : ascii) (s : string) :
  contains c s = false -> contains c (strip s) = false.
Proof. intros H. unfold strip. now apply contains_rstrip, contains_lstrip. Qed.

Lemma nonempty_false (s : string) : nonempty s = false -> s = "".
Proof. destruct s; [easy | discriminate]. Qed.

Lemma get_in_range (s : string) (i : nat) :
  i < String.length s -> exists c, String.get i s = Some c.
Proof.
  revert i. induction s as [| a s IH]; simpl; intros i Hi; [lia |].
  destruct i as [| i]; [now exists a |]. apply IH. lia.
Qed.

Lemma get_append_l (p q : string) (i : nat) :
  i < String.length p -> String.get i (p ++ q) = String.get i p.
Proof.
  revert i. induction p as [| a p IH]; simpl; intros i Hi; [lia |].
  destruct i as [| i]; [reflexivity |]. apply IH. lia.
Qed.

Lemma get_append_here (p q : string) (c : ascii) :
  String.get (String.length p) (p ++ String c q) = Some c.
Proof. induction p as [| a p IH]; simpl; [reflexivity | exact IH]. Qed.

Lemma length_append (p q : string) :
  String.length (p ++ q) = String.length p + String.length q.
Proof. induction p as [| a p IH]; simpl; [reflexivity | now rewrite IH]. Qed.

Lemma get_contains (c : ascii) (s : string) (i : nat) (a : ascii) :
  contains c s = false -> String.get i s = Some a -> Ascii.eqb a c = false.
Proof.
  revert i. induction s as [| b s IH]; simpl; intros i H G; [discriminate |].
  apply orb_false_iff in H as [Hb Hs].
  destruct i as [| i]; [now inversion G; subst | eauto].
Qed.

(** ** tcl_value2python_value *)

(** Induction on values that reaches the elements of a list. *)
Lemma Value_ind' (P : Value -> Prop) :
  (forall s, P (Scalar s)) ->
  (forall items, Forall P items -> P (VList items)) ->
  forall v, P v.
Proof.
  intros HS HL.
  fix IH 1. intros [s | items].
  - apply HS.
  - apply HL. induction items as [| x xs IHxs]; constructor.
    + apply IH.
    + exact IHxs.
Qed.

Example parse_doc_1 :
  tcl_value2python_value "a b {c d} e"
  = Some (VList [Scalar "a"; Scalar "b"; VList [Scalar "c"; Scalar "d"]; Scalar "e"]).
Proof. reflexivity. Qed.

Example parse_doc_2 :
  tcl_value2python_value "simple string" = Some (Scalar "simple string").
Proof. reflexivity. Qed.

(** The loop of [parse_list] ends whenever it has more fuel than
    characters left to read, and it ends at or behind the index it
    started from. *)
Lemma parse_list_loop_total (fuel : nat) :
  forall (s : string) (i : nat) (result : list Value) (current : list ascii),
    String.length s - i < fuel ->
    exists r j, parse_list_loop fuel s i result current = Some (r, j) /\ i <= j.
Proof.
  induction fuel as [| fuel IH]; intros s i result current Hf; [lia |].
  cbn [parse_list_loop].
  destruct (Nat.ltb_spec i (String.length s)) as [Hi | Hi].
  - destruct (get_in_range s i Hi) as [c ->].
    destruct (Ascii.eqb c lbrace).
    + destruct (IH s (i + 1) [] []) as (nested & new_i & -> & Hn); [lia |].
      destruct (IH s (new_i + 1) (flush result current ++ [VList nested]) [])
        as (r & j & -> & Hj); [lia |].
      exists r, j. split; [reflexivity | lia].
    + destruct (Ascii.eqb c rbrace).
      * eexists _, _. split; [reflexivity | lia].
      * destruct (Ascii.eqb c space
                  && match current with [] => false | _ => true end).
        -- destruct (IH s (i + 1)
                       (result ++ [Scalar (strip (join_chars current))]) [])
             as (r & j & -> & Hj); [lia |].
           exists r, j. split; [reflexivity | lia].
        -- destruct (IH s (i + 1) result (current ++ [c]))
             as (r & j & -> & Hj); [lia |].
           exists r, j. split; [reflexivity | lia].
  - eexists _, _. split; [reflexivity | lia].
Qed.

(** More fuel never changes a result. *)
Lemma parse_list_loop_fuel_mono (fuel : nat) :
  forall (fuel' : nat) (s : string) (i : nat) (result : list Value)
         (current : list ascii) (out : list Value * nat),
    parse_list_loop fuel s i result current = Some out ->
    fuel <= fuel' ->
    parse_list_loop fuel' s i result current = Some out.
Proof.
  induction fuel as [| fuel IH]; intros fuel' s i result current out H Hle;
    [discriminate |].
  destruct fuel' as [| fuel']; [lia |].
  assert (Hle' : fuel <= fuel') by lia.
  cbn [parse_list_loop] in *.
  destruct (i <? String.length s)%nat; [| exact H].
  destruct (String.get i s) as [c |]; [| discriminate].
  destruct (Ascii.eqb c lbrace).
  - destruct (parse_list_loop fuel s (i + 1) [] []) as [[nested new_i] |] eqn:E;
      [| discriminate].
    rewrite (IH fuel' _ _ _ _ _ E Hle'). now apply IH.
  - destruct (Ascii.eqb c rbrace); [exact H |].
    destruct (Ascii.eqb c space
              && match current with [] => false | _ => true end);
      now apply IH.
Qed.

Lemma parse_list_total (s : string) (start : nat) :
  exists r j, parse_list s start = Some (r, j).
Proof.
  unfold parse_list.
  destruct (parse_list_loop_total (S (String.length s)) s start [] [])
    as (r & j & H & _); [lia |]. now exists r, j.
Qed.

(** A text whose prefix [p] holds no brace and is followed by a closing
    brace is read up to that brace only: what follows the brace does not
    reach the result. *)
Lemma parse_list_loop_stops_at_rbrace (f1 : nat) :
  forall (f2 : nat) (p q : string) (i : nat) (result : list Value)
         (current : list ascii),
    contains lbrace p = false -> contains rbrace p = false ->
    i <= String.length p ->
    String.length p - i < f1 -> String.length p - i < f2 ->
    parse_list_loop f1 (p ++ String rbrace q) i result current
    = parse_list_loop f2 (p ++ String rbrace "") i result current.
Proof.
  induction f1 as [| f1 IH]; intros f2 p q i result current Hl Hr Hi H1 H2;
    [lia |].
  destruct f2 as [| f2]; [lia |].
  cbn [parse_list_loop]. rewrite !length_append. cbn [String.length].
  destruct (Nat.ltb_spec i (String.length p + S (String.length q)))
    as [_ | Hge]; [| lia].
  destruct (Nat.ltb_spec i (String.length p + 1)) as [_ | Hge]; [| lia].
  destruct (Nat.eq_dec i (String.length p)) as [-> | Hne].
  - rewrite !get_append_here. unfold rbrace, lbrace. simpl. reflexivity.
  - assert (Hlt : i < String.length p) by lia.
    rewrite !get_append_l by exact Hlt.
    destruct (get_in_range p i Hlt) as [c Hc]. rewrite Hc.
    rewrite (get_contains _ _ _ _ Hl Hc), (get_contains _ _ _ _ Hr Hc).
    destruct (Ascii.eqb c space
              && match current with [] => false | _ => true end);
      apply IH; auto; lia.
Qed.

Lemma rstrip_ends_nonspace (s : string) (c : ascii) :
  isspace c = false -> rstrip (s ++ String c "") = (s ++ String c "")%string.
Proof.
  intros Hc. induction s as [| a s IH]; simpl.
  - now rewrite Hc.
  - rewrite IH. destruct s; simpl; now rewrite andb_false_r.
Qed.

Lemma strip_list_wrap (s : string) :
  strip ("[list " ++ s ++ "]") = ("[list " ++ s ++ "]")%string.
Proof.
  unfold strip.
  change (lstrip ("[list " ++ s ++ "]"))
    with (("[list " ++ s) ++ String "]" "")%string.
  now apply rstrip_ends_nonspace.
Qed.

(** A scalar result of the parser is the stripped text, and it holds no
    brace unless it is empty. *)
Lemma parse_scalar_inv (text x : string) :
  tcl_value2python_value text = Some (Scalar x) ->
  x = strip text /\ contains lbrace x = false /\ contains rbrace x = false.
Proof.
  unfold tcl_value2python_value.
  destruct (nonempty (strip text)) eqn:En; simpl.
  - destruct (contains lbrace (strip text)) eqn:El;
      destruct (contains rbrace (strip text)) eqn:Er; simpl;
      try (destruct (startswith lbrace (strip text) && endswith rbrace (strip text));
           [destruct (parse_list (strip text) 1) as [[? ?] |]
           | destruct (parse_list (strip text) 0) as [[? ?] |]]; discriminate).
    intros [= <-]. auto.
  - intros [= <-]. apply nonempty_false in En. rewrite En. auto.
Qed.

Lemma parse_brace_free (s : string) :
  contains lbrace s = false -> contains rbrace s = false ->
  tcl_value2python_value s = Some (Scalar (strip s)).
Proof.
  intros Hl Hr. unfold tcl_value2python_value.
  destruct (nonempty (strip s)) eqn:En; simpl.
  - now rewrite (contains_strip _ _ Hl), (contains_strip _ _ Hr).
  - apply nonempty_false in En. now rewrite En.
Qed.

(** C2, as the code has it: a text without braces is parsed to the scalar
    of the stripped text, whitespace inside kept; the scalar [s] is
    rendered as the two-quote token when it is empty, as the list
    constructor around [s] when it holds a space character, and as [s]
    itself otherwise. *)
Theorem brace_free_scalar_codec (s : string) :
  contains lbrace s = false -> contains rbrace s = false ->
  tcl_value2python_value s = Some (Scalar (strip s)) /\
  python_value2tcl_value (Scalar s)
  = (if negb (nonempty s) then empty_repr
     else if contains space s then ("[list " ++ s ++ "]")%string
     else s).
Proof.
  intros Hl Hr. split; [now apply parse_brace_free |].
  simpl. now rewrite Hl, Hr.
Qed.

Lemma brace_free_scalar_codec_witness :
  tcl_value2python_value " two  words " = Some (Scalar "two  words") /\
  python_value2tcl_value (Scalar "two words") = "[list two words]".
Proof.
  destruct (brace_free_scalar_codec " two  words " eq_refl eq_refl) as [H _].
  destruct (brace_free_scalar_codec "two words" eq_refl eq_refl) as [_ H'].
  split; [exact H | exact H'].
Defined.

(** C2 as stated fails: surrounding whitespace is removed by the parser,
    the empty scalar is not rendered as itself, and a scalar whose only
    whitespace is a TAB is not wrapped. *)
Lemma brace_free_scalar_counterexample :
  tcl_value2python_value " a" <> Some (Scalar " a") /\
  python_value2tcl_value (Scalar "") <> "" /\
  (let s := String "a" (String (ascii_of_nat 9) "b") in
   isspace (ascii_of_nat 9) = true /\ python_value2tcl_value (Scalar s) = s).
Proof. repeat split; discriminate. Qed.

Lemma append_assoc_str (a b c : string) :
  ((a ++ b) ++ c)%string = (a ++ (b ++ c))%string.
Proof.
  induction a as [| x a IH]; [reflexivity |].
  change (String x ((a ++ b) ++ c) = String x (a ++ (b ++ c)))%string.
  now rewrite IH.
Qed.

Lemma contains_append (c : ascii) (a b : string) :
  contains c (a ++ b) = contains c a || contains c b.
Proof.
  induction a as [| x a IH]; [reflexivity |].
  change (Ascii.eqb x c || contains c (a ++ b)
          = Ascii.eqb x c || contains c a || contains c b).
  now rewrite IH, orb_assoc.
Qed.

Lemma get_some_lt (s : string) (i : nat) (c : ascii) :
  String.get i s = Some c -> i < String.length s.
Proof.
  revert i. induction s as [| a s IH]; simpl; intros i H; [discriminate |].
  destruct i as [| i]; [lia |]. apply IH in H. lia.
Qed.

Lemma get_append_r (p q : string) (k : nat) :
  String.get (String.length p + k) (p ++ q) = String.get k q.
Proof. induction p as [| a p IH]; simpl; [reflexivity | exact IH]. Qed.

(** One pass of the loop of [parse_list] on a character that is no brace
    and does not end a word. *)
Lemma parse_step_char (fuel : nat) (pre q : string) (k i : nat)
    (result : list Value) (current : list ascii) (c : ascii) :
  i = String.length pre + k -> String.get k q = Some c ->
  Ascii.eqb c lbrace = false -> Ascii.eqb c rbrace = false ->
  Ascii.eqb c space && match current with [] => false | _ => true end = false ->
  parse_list_loop (S fuel) (pre ++ q) i result current
  = parse_list_loop fuel (pre ++ q) (i + 1) result (current ++ [c]).
Proof.
  intros -> Hget Hl Hr Hs. cbn [parse_list_loop].
  rewrite get_append_r, Hget, Hl, Hr, Hs.
  apply get_some_lt in Hget.
  destruct (Nat.ltb_spec (String.length pre + k) (String.length (pre ++ q)))
    as [_ | Hge]; [reflexivity |].
  rewrite length_append in Hge. lia.
Qed.

(** One pass of the loop of [parse_list] on a space that ends a word. *)
Lemma parse_step_space (fuel : nat) (pre q : string) (k i : nat)
    (result : list Value) (current : list ascii) :
  i = String.length pre + k -> String.get k q = Some space ->
  current <> [] ->
  parse_list_loop (S fuel) (pre ++ q) i result current
  = parse_list_loop fuel (pre ++ q) (i + 1)
      (result ++ [Scalar (strip (join_chars current))]) [].
Proof.
  intros -> Hget Hcur. cbn [parse_list_loop].
  rewrite get_append_r, Hget.
  apply get_some_lt in Hget.
  destruct (Nat.ltb_spec (String.length pre + k) (String.length (pre ++ q)))
    as [_ | Hge]; [| rewrite length_append in Hge; lia].
  destruct current; [congruence | reflexivity].
Qed.

(** The parser reads the word that opens a list constructor as a
    scalar. *)
Lemma parse_list_word (fuel : nat) (pre post : string)
    (result : list Value) (out : list Value * nat) :
  parse_list_loop fuel (pre ++ "[list " ++ post) (String.length pre) result []
  = Some out ->
  exists fuel',
    parse_list_loop fuel' (pre ++ "[list " ++ post) (String.length pre + 6)
      (result ++ [Scalar "[list"]) [] = Some out.
Proof.
  intros H.
  destruct fuel as [| fuel]; [discriminate H |].
  rewrite (parse_step_char _ pre _ 0 _ _ _ "["%char) in H
    by (try reflexivity; lia).
  destruct fuel as [| fuel]; [discriminate H |].
  rewrite (parse_step_char _ pre _ 1 _ _ _ "l"%char) in H
    by (try reflexivity; lia).
  destruct fuel as [| fuel]; [discriminate H |].
  rewrite (parse_step_char _ pre _ 2 _ _ _ "i"%char) in H
    by (try reflexivity; lia).
  destruct fuel as [| fuel]; [discriminate H |].
  rewrite (parse_step_char _ pre _ 3 _ _ _ "s"%char) in H
    by (try reflexivity; lia).
  destruct fuel as [| fuel]; [discriminate H |].
  rewrite (parse_step_char _ pre _ 4 _ _ _ "t"%char) in H
    by (try reflexivity; lia).
  destruct fuel as [| fuel]; [discriminate H |].
  rewrite (parse_step_space _ pre _ 5) in H
    by (try reflexivity; try discriminate; lia).
  exists fuel.
  replace (String.length pre + 6)
    with (String.length pre + 1 + 1 + 1 + 1 + 1 + 1) by lia.
  exact H.
Qed.

(** The result of the loop of [parse_list] extends the result it was
    started with. *)
Lemma parse_list_loop_extends (fuel : nat) :
  forall (s : string) (i : nat) (result : list Value) (current : list ascii)
         (r : list Value) (j : nat),
    parse_list_loop fuel s i result current = Some (r, j) ->
    exists ext, r = result ++ ext.
Proof.
  induction fuel as [| fuel IH]; intros s i result current r j H;
    [discriminate |].
  assert (Hflush : exists ext, flush result current = result ++ ext).
  { unfold flush. destruct current; [exists []; now rewrite app_nil_r | eauto]. }
  cbn [parse_list_loop] in H.
  destruct (i <? String.length s)%nat.
  - destruct (String.get i s) as [c |]; [| discriminate].
    destruct (Ascii.eqb c lbrace).
    + destruct (parse_list_loop fuel s (i + 1) [] []) as [[nested new_i] |];
        [| discriminate].
      apply IH in H as [ext ->]. destruct Hflush as [ext' ->].
      rewrite <- !app_assoc. eauto.
    + destruct (Ascii.eqb c rbrace).
      * injection H as <- _. exact Hflush.
      * destruct (Ascii.eqb c space
                  && match current with [] => false | _ => true end).
        -- apply IH in H as [ext ->]. rewrite <- app_assoc. eauto.
        -- now apply IH in H.
  - injection H as <- _. exact Hflush.
Qed.

(** A list that the parser gives back from its own rendering would have to
    consist of the opening word of the constructor alone, and such a
    rendering holds no brace. *)
Lemma parse_rendered_list (rest : list Value) :
  forall (done : list Value) (pre : string) (fuel j : nat),
    parse_list_loop fuel (pre ++ "[list" ++ list_tail_text rest)
      (String.length pre) done [] = Some (done ++ rest, j) ->
    contains lbrace (list_tail_text rest) = false /\
    contains rbrace (list_tail_text rest) = false.
Proof.
  induction rest as [| x rest IH]; intros done pre fuel j H;
    [split; reflexivity |].
  assert (Htail : list_tail_text (x :: rest)
                  = (" " ++ render_item python_value2tcl_value x
                     ++ list_tail_text rest)%string).
  { unfold list_tail_text, join. cbn [map String.concat].
    destruct rest as [| y rest]; cbn [map]; [reflexivity |].
    now rewrite !append_assoc_str. }
  rewrite Htail in H |- *.
  change ("[list" ++ " " ++ ?t)%string with ("[list " ++ t)%string in H.
  apply parse_list_word in H as [fuel' H].
  destruct (parse_list_loop_extends _ _ _ _ _ _ _ H) as [ext Hext].
  rewrite <- app_assoc in Hext. apply app_inv_head in Hext.
  injection Hext as -> ->.
  cbn [render_item contains orb nonempty negb] in H |- *.
  change (pre ++ "[list " ++ "[list" ++ list_tail_text ext)%string
    with (pre ++ "[list " ++ ("[list" ++ list_tail_text ext))%string in H.
  rewrite <- (append_assoc_str pre "[list ") in H.
  replace (String.length pre + 6) with (String.length (pre ++ "[list "))
    in H by (rewrite length_append; reflexivity).
  replace (done ++ Scalar "[list" :: ext)
    with ((done ++ [Scalar "[list"]) ++ ext) in H
    by (now rewrite <- app_assoc).
  apply IH in H as [Hl Hr].
  rewrite !contains_append, Hl, Hr. split; reflexivity.
Qed.

(** No list value comes back from its rendering. *)
Lemma roundtrip_list (items : list Value) :
  tcl_value2python_value (python_value2tcl_value (VList items))
  <> Some (VList items).
Proof.
  destruct items as [| x xs]; [discriminate |].
  set (items := x :: xs). intros H.
  assert (Htext : python_value2tcl_value (VList items)
                  = ("[list" ++ list_tail_text items)%string) by reflexivity.
  assert (Hwrap : python_value2tcl_value (VList items)
                  = ("[list "
                     ++ join " " (map (render_item python_value2tcl_value) items)
                     ++ "]")%string) by reflexivity.
  unfold tcl_value2python_value in H.
  rewrite Hwrap, strip_list_wrap, <- Hwrap, Htext in H.
  change (nonempty ("[list" ++ list_tail_text items)) with true in H.
  change (startswith lbrace ("[list" ++ list_tail_text items)) with false in H.
  cbn [negb andb] in H.
  destruct (negb (contains lbrace ("[list" ++ list_tail_text items))
            && negb (contains rbrace ("[list" ++ list_tail_text items)))
    eqn:Eb; [discriminate |].
  destruct (parse_list ("[list" ++ list_tail_text items) 0)
    as [[r j] |] eqn:Ep; [| discriminate].
  injection H as ->.
  unfold parse_list in Ep.
  destruct (parse_rendered_list items [] "" _ j Ep) as [Hl Hr].
  rewrite !contains_append, Hl, Hr in Eb. discriminate.
Qed.

(** For a scalar the round trip through the rendered text gives the
    scalar back exactly when the text is not empty, holds no brace and no
    space character, and has no whitespace at its ends. *)
Lemma roundtrip_scalar (s : string) :
  tcl_value2python_value (python_value2tcl_value (Scalar s)) = Some (Scalar s)
  <-> (nonempty s = true /\ contains lbrace s = false /\
       contains rbrace s = false /\ contains space s = false /\ strip s = s).
Proof.
  split.
  - intros H. destruct (nonempty s) eqn:En.
    + destruct (parse_scalar_inv _ _ H) as (Hx & Hl & Hr).
      cbn [python_value2tcl_value] in Hx. rewrite En, Hl, Hr in Hx. simpl in Hx.
      destruct (contains space s) eqn:Es.
      * exfalso. rewrite strip_list_wrap in Hx.
        apply (f_equal String.length) in Hx.
        rewrite (length_append "[list " (s ++ "]")), (length_append s "]") in Hx.
        simpl in Hx. lia.
      * auto.
    + apply nonempty_false in En. subst s. discriminate H.
  - intros (En & Hl & Hr & Es & Hs).
    cbn [python_value2tcl_value]. rewrite En, Hl, Hr, Es. simpl.
    rewrite parse_brace_free by assumption. now rewrite Hs.
Qed.

(** C1, as the code has it: parsing the rendered text of a value gives
    the value back exactly when the value is a scalar whose text is not
    empty, holds no brace and no space character, and has no whitespace at
    its ends; no list value comes back. *)
Theorem roundtrip_exactly (v : Value) :
  tcl_value2python_value (python_value2tcl_value v) = Some v
  <-> exists s, v = Scalar s /\ nonempty s = true /\
                contains lbrace s = false /\ contains rbrace s = false /\
                contains space s = false /\ strip s = s.
Proof.
  destruct v as [s | items].
  - rewrite roundtrip_scalar. split.
    + intros H. now exists s.
    + intros (s' & [= <-] & H). exact H.
  - split.
    + intros H. now apply roundtrip_list in H.
    + intros (s & Hs & _). discriminate Hs.
Qed.

(** C1 as stated fails: a list is rendered as a list constructor, which
    the parser returns as a scalar; so does a scalar with a space. *)
Lemma roundtrip_counterexample :
  let v := VList [Scalar "a"; Scalar "b"] in
  tcl_value2python_value (python_value2tcl_value v) = Some (Scalar "[list a b]")
  /\ tcl_value2python_value (python_value2tcl_value v) <> Some v.
Proof. split; [reflexivity | discriminate]. Qed.

(** C3: a text in one pair of braces is parsed as the flat list of its
    interior. A text that starts with an opening brace and ends with a
    closing brace without being one pair is stripped and parsed all the
    same, and the parse ends at the first closing brace: the group
    behind it is lost, although the parse of the whole text as a token
    stream finds both groups. *)
Theorem outer_brace_stripping :
  tcl_value2python_value "{a b}" = Some (VList [Scalar "a"; Scalar "b"]) /\
  tcl_value2python_value "{a} {b}" = Some (VList [Scalar "a"]) /\
  parse_list "{a} {b}" 0
  = Some ([VList [Scalar "a"]; VList [Scalar "b"]], 8).
Proof. repeat split. Qed.

Example render_doc_1 :
  python_value2tcl_value
    (VList [Scalar "1"; Scalar "2"; VList [Scalar "3"; Scalar "4"]])
  = "[list 1 2 [list 3 4]]".
Proof. reflexivity. Qed.

Example render_doc_2 :
  python_value2tcl_value
    (VList [Scalar "1"; Scalar "a b"; VList [Scalar "2"; Scalar "3"]])
  = "[list 1 {a b} [list 2 3]]".
Proof. reflexivity. Qed.

(** C8: the empty scalar and the empty list are both rendered as the text
    of two double-quote characters. *)
Theorem render_empty_collapse :
  python_value2tcl_value (Scalar "") = empty_repr /\
  python_value2tcl_value (VList []) = empty_repr /\
  empty_repr = String (ascii_of_nat 34) (String (ascii_of_nat 34) "") /\
  Scalar "" <> VList [].
Proof. repeat split. discriminate. Qed.

(** ** Dictionaries *)

Section DictFacts.
Context {V : Type}.
Implicit Types (d : list (string * V)) (k key : string) (v : V).

Lemma dict_get_set_eq key v d : dict_get key (dict_set key v d) = Some v.
Proof.
  induction d as [| [k x] d IH]; simpl.
  - now rewrite String.eqb_refl.
  - destruct (String.eqb k key) eqn:E; simpl; now rewrite E.
Qed.

Lemma dict_get_set_ne key k v d :
  key <> k -> dict_get k (dict_set key v d) = dict_get k d.
Proof.
  intros Hne. induction d as [| [k' x] d IH]; simpl.
  - apply String.eqb_neq in Hne. now rewrite Hne.
  - destruct (String.eqb k' key) eqn:E; simpl.
    + apply String.eqb_eq in E. subst k'.
      apply String.eqb_neq in Hne. now rewrite Hne.
    + now rewrite IH.
Qed.

Lemma dict_get_absent key d : ~ In key (map fst d) -> dict_get key d = None.
Proof.
  induction d as [| [k x] d IH]; simpl; [easy |].
  intros Hn. destruct (String.eqb k key) eqn:E.
  - apply String.eqb_eq in E. tauto.
  - apply IH. tauto.
Qed.

Lemma dict_get_present key d :
  In key (map fst d) -> exists v, dict_get key d = Some v.
Proof.
  induction d as [| [k x] d IH]; simpl; [easy |].
  intros [-> | Hin].
  - rewrite String.eqb_refl. eauto.
  - destruct (String.eqb k key); eauto.
Qed.

Lemma dict_get_some_in key v d :
  dict_get key d = Some v -> In key (map fst d).
Proof.
  induction d as [| [k x] d IH]; simpl; [discriminate |].
  destruct (String.eqb k key) eqn:E.
  - apply String.eqb_eq in E. auto.
  - auto.
Qed.

Lemma dict_set_absent key v d :
  dict_get key d = None -> dict_set key v d = d ++ [(key, v)].
Proof.
  induction d as [| [k x] d IH]; simpl; [easy |].
  destruct (String.eqb k key); [discriminate |].
  intros H. now rewrite IH.
Qed.

Lemma dict_get_app key d d' :
  dict_get key (d ++ d')
  = match dict_get key d with Some v => Some v | None => dict_get key d' end.
Proof.
  induction d as [| [k x] d IH]; simpl; [reflexivity |].
  now destruct (String.eqb k key).
Qed.

End DictFacts.

(** ** merge_dicts *)

Section MergeFacts.
Context {A : Type}.
Implicit Types (base incoming : tree A) (overwrite : bool).

(** The body of [merge_dicts] as the source writes it. *)
Lemma merge_dicts_eq (dict1 dict2 : tree A) (overwrite : bool) :
  merge_dicts dict1 dict2 overwrite
  = fold_left
      (fun result '(key, value) =>
         match dict_get key result, value with
         | Some (Dict sub), Dict sub2 =>
             dict_set key (Dict (merge_dicts sub sub2 overwrite)) result
         | Some _, _ =>
             if overwrite then dict_set key value result else result
         | None, _ => dict_set key value result
         end)
      dict2 dict1.
Proof.
  unfold merge_dicts. cbn [merge_node].
  revert dict1. induction dict2 as [| [key value] rest IH]; intros dict1.
  - reflexivity.
  - cbn [fold_left]. rewrite IH. f_equal.
    unfold merge_step. destruct (dict_get key dict1) as [[a | sub] |];
      destruct value; reflexivity.
Qed.

Lemma merge_dicts_nil base overwrite : merge_dicts base [] overwrite = base.
Proof. reflexivity. Qed.

Lemma merge_dicts_cons base key value rest overwrite :
  merge_dicts base ((key, value) :: rest) overwrite
  = merge_dicts (merge_item overwrite base key value) rest overwrite.
Proof. now rewrite !merge_dicts_eq. Qed.

Lemma merge_item_other overwrite base key value k :
  key <> k ->
  dict_get k (merge_item overwrite base key value) = dict_get k base.
Proof.
  intros Hne. unfold merge_item.
  destruct (dict_get key base) as [[a | sub] |]; destruct value;
    try destruct overwrite; auto using dict_get_set_ne.
Qed.

Lemma merge_item_same overwrite base key value :
  dict_get key (merge_item overwrite base key value)
  = match dict_get key base, value with
    | Some (Dict sub), Dict sub2 =>
        Some (Dict (merge_dicts sub sub2 overwrite))
    | Some old, _ => if overwrite then Some value else Some old
    | None, _ => Some value
    end.
Proof.
  unfold merge_item.
  destruct (dict_get key base) as [[a | sub] |] eqn:E; destruct value;
    try destruct overwrite; auto using dict_get_set_eq.
Qed.

(** The entry of every key after a merge. *)
Lemma merge_dicts_lookup incoming :
  forall base overwrite key,
    dict_wf incoming ->
    dict_get key (merge_dicts base incoming overwrite)
    = match dict_get key base, dict_get key incoming with
      | Some (Dict sub), Some (Dict sub2) =>
          Some (Dict (merge_dicts sub sub2 overwrite))
      | Some old, Some new => if overwrite then Some new else Some old
      | None, Some new => Some new
      | old, None => old
      end.
Proof.
  induction incoming as [| [k value] rest IH]; intros base overwrite key Hwf.
  - rewrite merge_dicts_nil. simpl. now destruct (dict_get key base) as [[|]|].
  - unfold dict_wf in Hwf. simpl in Hwf. apply NoDup_cons_iff in Hwf as [Hk Hwf].
    rewrite merge_dicts_cons, IH by exact Hwf. simpl.
    destruct (String.eqb k key) eqn:E.
    + apply String.eqb_eq in E. subst k.
      rewrite (dict_get_absent _ _ Hk), merge_item_same.
      destruct (dict_get key base) as [[a | sub] |]; destruct value;
        try destruct overwrite; reflexivity.
    + apply String.eqb_neq in E. now rewrite merge_item_other.
Qed.

(** Merging into a dictionary that has none of the keys appends. *)
Lemma merge_dicts_fresh incoming :
  forall base overwrite,
    dict_wf incoming ->
    (forall k, In k (map fst incoming) -> dict_get k base = None) ->
    merge_dicts base incoming overwrite = base ++ incoming.
Proof.
  induction incoming as [| [k value] rest IH]; intros base overwrite Hwf Hfresh.
  - rewrite merge_dicts_nil. now rewrite app_nil_r.
  - unfold dict_wf in Hwf. simpl in Hwf. apply NoDup_cons_iff in Hwf as [Hk Hwf].
    rewrite merge_dicts_cons. unfold merge_item.
    rewrite (Hfresh k) by (simpl; auto).
    rewrite dict_set_absent by (apply Hfresh; simpl; auto).
    rewrite IH; [now rewrite <- app_assoc | exact Hwf |].
    intros k' Hin. rewrite dict_get_app, (Hfresh k') by (simpl; auto).
    simpl. destruct (String.eqb k k') eqn:E; [| reflexivity].
    apply String.eqb_eq in E. subst. contradiction.
Qed.

Lemma merge_dicts_empty_l incoming overwrite :
  dict_wf incoming -> merge_dicts [] incoming overwrite = incoming.
Proof. intros Hwf. now rewrite merge_dicts_fresh. Qed.

End MergeFacts.

Example merge_doc :
  merge_dicts
    [("a", Leaf 1%Z); ("b", Dict [("c", Leaf 2%Z)])]
    [("b", Dict [("d", Leaf 3%Z)]); ("e", Leaf 4%Z)] true
  = [("a", Leaf 1%Z); ("b", Dict [("c", Leaf 2%Z); ("d", Leaf 3%Z)]);
     ("e", Leaf 4%Z)].
Proof. reflexivity. Qed.

(** C4: after [merge_dicts(base, incoming, overwrite)] a key holds the
    recursive merge when both dictionaries hold a nested dictionary at it;
    otherwise the entry of [incoming] when [base] has none or [overwrite]
    is set, and the entry of [base] when it has one and [overwrite] is not
    set; a key of [base] alone keeps its entry. The example of the
    documentation is an instance. *)
Theorem merge_dicts_spec {A : Type} (base incoming : tree A)
    (overwrite : bool) (key : string) :
  dict_wf incoming ->
  dict_get key (merge_dicts base incoming overwrite)
  = match dict_get key base, dict_get key incoming with
    | Some (Dict sub), Some (Dict sub2) =>
        Some (Dict (merge_dicts sub sub2 overwrite))
    | Some old, Some new => if overwrite then Some new else Some old
    | None, Some new => Some new
    | old, None => old
    end
  /\ merge_dicts
       [("a", Leaf 1%Z); ("b", Dict [("c", Leaf 2%Z)])]
       [("b", Dict [("d", Leaf 3%Z)]); ("e", Leaf 4%Z)] true
     = [("a", Leaf 1%Z); ("b", Dict [("c", Leaf 2%Z); ("d", Leaf 3%Z)]);
        ("e", Leaf 4%Z)].
Proof.
  intros Hwf. split; [now apply merge_dicts_lookup | reflexivity].
Qed.

Lemma merge_dicts_spec_witness :
  dict_get "b"
    (merge_dicts [("a", Leaf 1%Z); ("b", Dict [("c", Leaf 2%Z)])]
       [("b", Dict [("d", Leaf 3%Z)]); ("e", Leaf 4%Z)] true)
  = Some (Dict (merge_dicts [("c", Leaf 2%Z)] [("d", Leaf 3%Z)] true))
  /\ merge_dicts
       [("a", Leaf 1%Z); ("b", Dict [("c", Leaf 2%Z)])]
       [("b", Dict [("d", Leaf 3%Z)]); ("e", Leaf 4%Z)] true
     = [("a", Leaf 1%Z); ("b", Dict [("c", Leaf 2%Z); ("d", Leaf 3%Z)]);
        ("e", Leaf 4%Z)].
Proof.
  apply (merge_dicts_spec
           [("a", Leaf 1%Z); ("b", Dict [("c", Leaf 2%Z)])]
           [("b", Dict [("d", Leaf 3%Z)]); ("e", Leaf 4%Z)] true "b").
  unfold dict_wf. simpl.
  repeat constructor; simpl; intuition discriminate.
Defined.

(** ** process_config_inputs *)

Section AggregateFacts.
Context {A : Type}.
Variable tcl_to_dict : string -> option (tree A).
Variable yaml_to_dict : string -> option (tree A).
Variable ext_lower : string -> string.

(** The label that the claim gives the dictionary at index [i] of [n]:
    the last one is the fixed one, the first one the basic one unless it
    is also the last. *)
Lemma source_name_of_cases (i n : nat) :
  source_name_of i n
  = if (i =? n - 1)%nat then "Fixed Appendix info"
    else if (i =? 0)%nat then "Basic Appendix info"
    else "Appendix info apply".
Proof. unfold source_name_of. now destruct (i =? n - 1)%nat, (i =? 0)%nat. Qed.

Lemma process_loop_dicts (n : nat) (ts : list (tree A)) :
  forall (i : nat) (merged : tree A) (sources : list (string * tree A)),
    Forall dict_wf ts ->
    process_loop tcl_to_dict yaml_to_dict ext_lower n i (map InDict ts)
      (merged, sources)
    = (fold_left (fun m t => merge_dicts m t true) ts merged,
       fold_left (fun sd it => dict_set (source_name_of (fst it) n) (snd it) sd)
         (combine (seq i (length ts)) ts) sources).
Proof.
  induction ts as [| t ts IH]; intros i merged sources Hwf; [reflexivity |].
  inversion Hwf as [| ? ? Ht Hts]; subst.
  cbn [map process_loop length seq combine fold_left fst snd].
  unfold process_input at 1. rewrite IH by exact Hts.
  f_equal. f_equal.
  destruct merged; [now rewrite merge_dicts_empty_l | reflexivity].
Qed.

End AggregateFacts.

Example process_config_inputs_doc :
  process_config_inputs (fun _ => None) (fun _ => None) (fun p => p)
    [InDict [("var1", Leaf "value1"); ("var2", Leaf "value2")];
     InDict [("var2", Leaf "value2b")]]
  = ([("var1", Leaf "value1"); ("var2", Leaf "value2b")],
     [("Basic Appendix info", [("var1", Leaf "value1"); ("var2", Leaf "value2")]);
      ("Fixed Appendix info", [("var2", Leaf "value2b")])]).
Proof. reflexivity. Qed.

(** C5, as the code has it: for dictionary inputs the merged dictionary
    is the left fold of [merge_dicts] with overwrite over the inputs in
    order, and the dictionary of sources receives every input under its
    label: the last input is the fixed one, the first input is the basic
    one when it is not also the last, every other input is an applied
    one. The two inputs of the scenario give the merged dictionary and the
    two labelled sources of the scenario. *)
Theorem process_config_inputs_dicts {A : Type}
    (tcl_to_dict yaml_to_dict : string -> option (tree A))
    (ext_lower : string -> string) (ts : list (tree A)) :
  Forall dict_wf ts ->
  process_config_inputs tcl_to_dict yaml_to_dict ext_lower (map InDict ts)
  = (fold_left (fun m t => merge_dicts m t true) ts [],
     fold_left
       (fun sd it =>
          dict_set
            (if (fst it =? length ts - 1)%nat then "Fixed Appendix info"
             else if (fst it =? 0)%nat then "Basic Appendix info"
             else "Appendix info apply")
            (snd it) sd)
       (combine (seq 0 (length ts)) ts) [])
  /\ process_config_inputs (fun _ => None) (fun _ => None) (fun p => p)
       [InDict [("var1", Leaf "value1"); ("var2", Leaf "value2")];
        InDict [("var2", Leaf "value2b")]]
     = ([("var1", Leaf "value1"); ("var2", Leaf "value2b")],
        [("Basic Appendix info",
          [("var1", Leaf "value1"); ("var2", Leaf "value2")]);
         ("Fixed Appendix info", [("var2", Leaf "value2b")])]).
Proof.
  intros Hwf. split; [| reflexivity].
  unfold process_config_inputs. rewrite length_map.
  etransitivity; [apply process_loop_dicts; exact Hwf |]. reflexivity.
Qed.

Lemma process_config_inputs_dicts_witness :
  process_config_inputs (fun _ => None) (fun _ => None) (fun p => p)
    [InDict [("k", Leaf "1")]; InDict [("k", Leaf "2"); ("m", Leaf "3")];
     InDict [("m", Leaf "4")]]
  = ([("k", Leaf "2"); ("m", Leaf "4")],
     [("Basic Appendix info", [("k", Leaf "1")]);
      ("Appendix info apply", [("k", Leaf "2"); ("m", Leaf "3")]);
      ("Fixed Appendix info", [("m", Leaf "4")])])
  /\ process_config_inputs (fun _ => None) (fun _ => None) (fun p => p)
       [InDict [("var1", Leaf "value1"); ("var2", Leaf "value2")];
        InDict [("var2", Leaf "value2b")]]
     = ([("var1", Leaf "value1"); ("var2", Leaf "value2b")],
        [("Basic Appendix info",
          [("var1", Leaf "value1"); ("var2", Leaf "value2")]);
         ("Fixed Appendix info", [("var2", Leaf "value2b")])]).
Proof.
  apply (process_config_inputs_dicts (A := string)
           (fun _ => None) (fun _ => None) (fun p => p)
           [[("k", Leaf "1")]; [("k", Leaf "2"); ("m", Leaf "3")];
            [("m", Leaf "4")]]).
  repeat constructor; simpl; intuition discriminate.
Defined.

(** C5 as stated fails on a single input: it is the first input, and its
    label is the one of the last input. *)
Lemma process_config_inputs_counterexample :
  let sources :=
    snd (process_config_inputs (fun _ => None) (fun _ => None) (fun p => p)
           [InDict [("var1", Leaf "value1")]]) in
  sources = [("Fixed Appendix info", [("var1", Leaf "value1")])]
  /\ dict_get "Basic Appendix info" sources = None.
Proof. split; reflexivity. Qed.

(** ** set_nested_dict *)

Section NestedFacts.
Context {A : Type}.
Implicit Types (d : tree A) (keys : list string) (value : node A).

Lemma lookup_path_empty keys : lookup_path (A := A) [] keys = None.
Proof. destruct keys as [| k [| k' keys]]; reflexivity. Qed.

Lemma lookup_path_cons d key rest :
  rest <> [] ->
  lookup_path d (key :: rest)
  = match dict_get key d with
    | Some (Dict sub) => lookup_path sub rest
    | _ => None
    end.
Proof. destruct rest; [congruence | reflexivity]. Qed.

Lemma set_nested_dict_cons d key rest value :
  rest <> [] ->
  set_nested_dict d (key :: rest) value
  = match dict_get key d with
    | None =>
        match set_nested_dict [] rest value with
        | inr sub => inr (dict_set key (Dict sub) d)
        | inl e => inl e
        end
    | Some (Dict current) =>
        match set_nested_dict current rest value with
        | inr sub => inr (dict_set key (Dict sub) d)
        | inl e => inl e
        end
    | Some (Leaf _) =>
        inl (match rest with [_] => TypeError | _ => AttributeError end)
    end.
Proof.
  destruct rest as [| k rest]; [congruence |]. intros _.
  cbn [set_nested_dict].
  destruct (dict_get key d) as [[a | sub] |]; reflexivity.
Qed.

(** A terminal value on the way: the call raises. *)
Lemma set_nested_dict_blocked keys :
  forall d value n a,
    0 < n < length keys ->
    lookup_path d (firstn n keys) = Some (Leaf a) ->
    exists e, set_nested_dict d keys value = inl e.
Proof.
  induction keys as [| key rest IH]; intros d value n a Hn Hl; simpl in Hn;
    [lia |].
  assert (Hrest : rest <> []) by (destruct rest; simpl in Hn; [lia | congruence]).
  rewrite set_nested_dict_cons by exact Hrest.
  destruct n as [| n]; [lia |]. cbn [firstn] in Hl.
  destruct n as [| n].
  - rewrite firstn_0 in Hl. cbn [lookup_path] in Hl. rewrite Hl. eauto.
  - assert (Hf : firstn (S n) rest <> []) by (destruct rest; [congruence | discriminate]).
    rewrite lookup_path_cons in Hl by exact Hf.
    destruct (dict_get key d) as [[b | sub] |]; try discriminate.
    destruct (IH sub value (S n) a) as [e He]; [lia | exact Hl |].
    rewrite He. eauto.
Qed.

(** No terminal value on the way: the call sets the leaf, creates the
    dictionaries that are missing, and leaves alone every path that is
    neither above nor below the path set. *)
Lemma set_nested_dict_ok keys :
  forall d value,
    keys <> [] ->
    (forall n a, 0 < n < length keys ->
                 lookup_path d (firstn n keys) <> Some (Leaf a)) ->
    exists d',
      set_nested_dict d keys value = inr d' /\
      lookup_path d' keys = Some value /\
      (forall p, (forall r, keys <> p ++ r) -> (forall r, p <> keys ++ r) ->
                 lookup_path d' p = lookup_path d p).
Proof.
  induction keys as [| key rest IH]; intros d value Hne Hfree; [congruence |].
  destruct rest as [| k2 rest].
  - (* the last key *)
    exists (dict_set key value d). split; [reflexivity |].
    split; [apply dict_get_set_eq |].
    intros p Hp1 Hp2. destruct p as [| q p]; [reflexivity |].
    destruct (String.eqb key q) eqn:E.
    + apply String.eqb_eq in E. subst q. exfalso. apply (Hp2 p). reflexivity.
    + apply String.eqb_neq in E.
      destruct p as [| q' p]; cbn [lookup_path];
        now rewrite dict_get_set_ne.
  - (* an intermediate key *)
    assert (Hrest : k2 :: rest <> []) by discriminate.
    remember (k2 :: rest) as rest' eqn:Erest. clear Erest k2 rest.
    rewrite set_nested_dict_cons by exact Hrest.
    set (sub := match dict_get key d with Some (Dict s) => s | _ => [] end).
    assert (Hsubfree : forall n a, 0 < n < length rest' ->
               lookup_path sub (firstn n rest') <> Some (Leaf a)).
    { intros n a Hn Hl. apply (Hfree (S n) a); [simpl; lia |].
      cbn [firstn]. rewrite lookup_path_cons
        by (destruct n, rest'; simpl in *; try lia; congruence).
      unfold sub in Hl.
      destruct (dict_get key d) as [[b | s] |]; try exact Hl;
        now rewrite lookup_path_empty in Hl. }
    destruct (IH sub value Hrest Hsubfree) as (sub' & Hset & Hget & Hframe).
    assert (Hnoleaf : forall b, dict_get key d <> Some (Leaf b)).
    { intros b Hb. apply (Hfree 1 b); [| exact Hb].
      destruct rest'; [congruence | simpl; lia]. }
    exists (dict_set key (Dict sub') d).
    assert (Hcode : match dict_get key d with
                    | None =>
                        match set_nested_dict [] rest' value with
                        | inr s => inr (dict_set key (Dict s) d)
                        | inl e => inl e
                        end
                    | Some (Dict current) =>
                        match set_nested_dict current rest' value with
                        | inr s => inr (dict_set key (Dict s) d)
                        | inl e => inl e
                        end
                    | Some (Leaf _) =>
                        inl (match rest' with
                             | [_] => TypeError | _ => AttributeError end)
                    end = inr (dict_set key (Dict sub') d)).
    { unfold sub in Hset.
      destruct (dict_get key d) as [[b | s] |].
      - exfalso. now apply (Hnoleaf b).
      - now rewrite Hset.
      - now rewrite Hset. }
    split; [exact Hcode |]. split.
    + rewrite lookup_path_cons by exact Hrest.
      now rewrite dict_get_set_eq.
    + intros p Hp1 Hp2. destruct p as [| q p]; [reflexivity |].
      destruct (String.eqb key q) eqn:E.
      * apply String.eqb_eq in E. subst q.
        destruct p as [| q' p].
        { exfalso. apply (Hp1 rest'). reflexivity. }
        rewrite !lookup_path_cons by discriminate.
        rewrite dict_get_set_eq.
        rewrite Hframe.
        -- unfold sub. destruct (dict_get key d) as [[b | s] |];
             try reflexivity; apply lookup_path_empty.
        -- intros r Hr. apply (Hp1 r). simpl. now rewrite Hr.
        -- intros r Hr. apply (Hp2 r). simpl. now rewrite Hr.
      * apply String.eqb_neq in E.
        destruct p as [| q' p]; cbn [lookup_path];
          now rewrite dict_get_set_ne.
Qed.

End NestedFacts.

Example set_nested_doc :
  set_nested_dict (A := Z) [] ["a"; "b"; "c"] (Leaf 1%Z)
  = inr [("a", Dict [("b", Dict [("c", Leaf 1%Z)])])].
Proof. reflexivity. Qed.

(** C9: on a key path of two keys or more, [set_nested_dict] raises when
    a proper prefix of the path reaches a terminal value; when no proper
    prefix does, it returns with the value at the path, missing
    dictionaries created, and every path that is neither a prefix nor an
    extension of the path reaches what it reached before. *)
Theorem set_nested_dict_spec {A : Type} (d : tree A) (keys : list string)
    (value : node A) :
  2 <= length keys ->
  ((exists n a, 0 < n < length keys /\
                lookup_path d (firstn n keys) = Some (Leaf a)) ->
   exists e, set_nested_dict d keys value = inl e)
  /\
  ((forall n a, 0 < n < length keys ->
                lookup_path d (firstn n keys) <> Some (Leaf a)) ->
   exists d',
     set_nested_dict d keys value = inr d' /\
     lookup_path d' keys = Some value /\
     (forall p, (forall r, keys <> p ++ r) -> (forall r, p <> keys ++ r) ->
                lookup_path d' p = lookup_path d p)).
Proof.
  intros Hlen. split.
  - intros (n & a & Hn & Hl). now apply (set_nested_dict_blocked keys d value n a).
  - intros Hfree. apply set_nested_dict_ok; [| exact Hfree].
    destruct keys; [simpl in Hlen; lia | discriminate].
Qed.

Lemma set_nested_dict_spec_witness :
  (exists e,
     set_nested_dict [("a", Leaf 1%Z)] ["a"; "b"] (Leaf 2%Z) = inl e)
  /\
  (exists d',
     set_nested_dict [("x", Leaf 0%Z)] ["a"; "b"] (Leaf 2%Z) = inr d' /\
     lookup_path d' ["a"; "b"] = Some (Leaf 2%Z) /\
     lookup_path d' ["x"] = Some (Leaf 0%Z)).
Proof.
  split.
  - apply (proj1 (set_nested_dict_spec [("a", Leaf 1%Z)] ["a"; "b"] (Leaf 2%Z)
                    (le_n 2))).
    exists 1, 1%Z. split; [simpl; lia | reflexivity].
  - destruct (proj2 (set_nested_dict_spec [("x", Leaf 0%Z)] ["a"; "b"]
                       (Leaf 2%Z) (le_n 2)))
      as (d' & Hset & Hget & Hframe).
    + intros n a Hn. simpl in Hn. assert (n = 1) as -> by lia. discriminate.
    + exists d'. split; [exact Hset |]. split; [exact Hget |].
      rewrite Hframe; [reflexivity | |]; intros r Hr.
      * destruct r; discriminate.
      * discriminate.
Defined.

(** ** dict_to_tcl *)

Lemma str_ltb_lt (a b : string) : str_ltb a b = true <-> String_as_OT.lt a b.
Proof.
  unfold str_ltb, String_as_OT.lt.
  destruct (String_as_OT.compare a b); split; congruence.
Qed.

Lemma str_ltb_asym (a b : string) : str_ltb a b = true -> str_ltb b a = false.
Proof.
  intros H. destruct (str_ltb b a) eqn:E; [| reflexivity].
  apply str_ltb_lt in H, E. exfalso.
  apply (StrictOrder_Irreflexive (R := String_as_OT.lt) a).
  now transitivity b.
Qed.

(** [str_le] is the order [a <= b] of Python strings. *)
Lemma str_le_iff (a b : string) : str_le a b <-> a = b \/ String_as_OT.lt a b.
Proof.
  unfold str_le. split.
  - intros H. destruct (String_as_OT.compare_spec a b) as [E | L | G]; auto.
    apply str_ltb_lt in G. congruence.
  - intros [-> | L].
    + destruct (str_ltb b b) eqn:E; [| reflexivity].
      apply str_ltb_lt in E.
      now apply (StrictOrder_Irreflexive (R := String_as_OT.lt)) in E.
    + now apply str_ltb_asym, str_ltb_lt.
Qed.

Lemma str_le_trans (a b c : string) : str_le a b -> str_le b c -> str_le a c.
Proof.
  rewrite !str_le_iff. intros [-> | H1] [-> | H2]; auto.
  right. now transitivity b.
Qed.

Lemma str_le_antisym (a b : string) : str_le a b -> str_le b a -> a = b.
Proof.
  rewrite !str_le_iff. intros [-> | H1] [E | H2]; auto.
  exfalso. apply (StrictOrder_Irreflexive (R := String_as_OT.lt) a).
  now transitivity b.
Qed.

Lemma insert_line_HdRel (x y : string) (l : list string) :
  str_le y x -> HdRel str_le y l -> HdRel str_le y (insert_line x l).
Proof.
  intros Hyx Hl. destruct l as [| z l]; simpl; [now constructor |].
  destruct (str_ltb x z); constructor; [exact Hyx |].
  now inversion Hl.
Qed.

Lemma insert_line_Sorted (x : string) (l : list string) :
  Sorted str_le l -> Sorted str_le (insert_line x l).
Proof.
  induction 1 as [| y l Hs IH Hhd]; simpl; [repeat constructor |].
  destruct (str_ltb x y) eqn:E.
  - constructor; [now constructor |]. constructor. now apply str_ltb_asym.
  - constructor; [exact IH |]. now apply insert_line_HdRel.
Qed.

Lemma insert_line_Permutation (x : string) (l : list string) :
  Permutation (x :: l) (insert_line x l).
Proof.
  induction l as [| y l IH]; simpl; [reflexivity |].
  destruct (str_ltb x y); [reflexivity |].
  rewrite perm_swap. now constructor.
Qed.

Lemma sorted_acc_Sorted (lines acc : list string) :
  Sorted str_le acc ->
  Sorted str_le (fold_left (fun acc x => insert_line x acc) lines acc).
Proof.
  revert acc. induction lines as [| x lines IH]; intros acc Hacc; simpl;
    [exact Hacc |].
  apply IH. now apply insert_line_Sorted.
Qed.

Lemma sorted_acc_Permutation (lines acc : list string) :
  Permutation (acc ++ lines)
    (fold_left (fun acc x => insert_line x acc) lines acc).
Proof.
  revert acc. induction lines as [| x lines IH]; intros acc; simpl.
  - now rewrite app_nil_r.
  - rewrite <- IH. rewrite <- insert_line_Permutation.
    symmetry. apply Permutation_middle.
Qed.

(** The result of [sorted] is in order, and it is a rearrangement of the
    argument. *)
Lemma sorted_Sorted (lines : list string) : Sorted str_le (sorted lines).
Proof. apply sorted_acc_Sorted. constructor. Qed.

Lemma sorted_Permutation (lines : list string) :
  Permutation lines (sorted lines).
Proof. apply (sorted_acc_Permutation lines []). Qed.

(** Two lists in order with the same elements are the same list: the
    result of [sorted] does not depend on the sorting procedure. *)
Lemma sorted_unique (l l' : list string) :
  Sorted str_le l -> Sorted str_le l' -> Permutation l l' -> l = l'.
Proof.
  intros Hl Hl' Hp.
  apply Sorted_StronglySorted in Hl; [| exact str_le_trans].
  apply Sorted_StronglySorted in Hl'; [| exact str_le_trans].
  revert l' Hl' Hp. induction Hl as [| x l Hs IH Hx]; intros l' Hl' Hp.
  - now apply Permutation_nil in Hp.
  - destruct Hl' as [| y l' Hs' Hy].
    + symmetry in Hp. now apply Permutation_nil in Hp.
    + assert (Exy : x = y).
      { assert (Hy' : In y (x :: l))
          by (eapply Permutation_in; [symmetry; exact Hp | now left]).
        assert (Hx' : In x (y :: l'))
          by (eapply Permutation_in; [exact Hp | now left]).
        destruct Hy' as [E | Hy']; [exact E |].
        destruct Hx' as [E | Hx']; [now symmetry |].
        rewrite List.Forall_forall in Hx, Hy.
        apply str_le_antisym; auto. }
      subst y. f_equal. apply IH; [exact Hs' |].
      now apply Permutation_cons_inv in Hp.
Qed.

Lemma sorted_perm_eq (l l' : list string) :
  Permutation l l' -> sorted l = sorted l'.
Proof.
  intros Hp. apply sorted_unique; try apply sorted_Sorted.
  now rewrite <- !sorted_Permutation.
Qed.

(** The body of [process_dict] as the source writes it. *)
Lemma process_dict_eq (d : tree Value) (prefix : string) :
  process_dict d prefix
  = sorted
      (flat_map
         (fun '(key, value) =>
            match value with
            | Dict sub => process_dict sub (child_name prefix key)
            | Leaf v =>
                [("set " ++ var_name_of prefix key ++ " "
                  ++ python_value2tcl_value v)%string]
            end)
         d).
Proof.
  unfold process_dict. f_equal. apply flat_map_ext.
  intros [key [v | sub]]; reflexivity.
Qed.

Example process_dict_doc :
  process_dict
    [("var", Leaf (Scalar "1"));
     ("arr", Dict [("x", Leaf (VList [Scalar "1"; Scalar "2"; Scalar "3"]))]);
     ("a", Dict [("b", Dict [("c", Dict [("d", Leaf (Scalar "2"))])])])] ""
  = ["set a(b,c,d) 2"; "set arr(x) [list 1 2 3]"; "set var 1"].
Proof. reflexivity. Qed.

Lemma process_dict_Sorted (d : tree Value) (prefix : string) :
  Sorted str_le (process_dict d prefix).
Proof. apply sorted_Sorted. Qed.

Lemma process_dict_perm (d d' : tree Value) (prefix : string) :
  Permutation d d' -> process_dict d prefix = process_dict d' prefix.
Proof.
  intros Hp. unfold process_dict. apply sorted_perm_eq.
  now apply Permutation_flat_map.
Qed.

Lemma write_sources_Sorted (data : tree Value) :
  Forall (fun w => match w with
                   | WLines tcl_lines => Sorted str_le tcl_lines
                   | _ => True
                   end) (fst (write_sources data)).
Proof.
  induction data as [| [source_name [v | source_dict]] rest IH]; simpl.
  - constructor.
  - repeat constructor.
  - destruct (write_sources rest) as [ws e]. simpl in *.
    repeat constructor; [apply process_dict_Sorted | exact IH].
Qed.

(** C10: every block of [set] statements that [dict_to_tcl] writes, the
    whole document or the section of one source, is in the order of
    Python strings, whatever the order of the keys in the dictionaries;
    that order is the lexicographic order of the texts. *)
Theorem dict_to_tcl_sorted (data : tree Value) (with_source : bool) :
  Forall (fun w => match w with
                   | WLines tcl_lines => Sorted str_le tcl_lines
                   | _ => True
                   end) (fst (dict_to_tcl data with_source))
  /\ (forall a b : string, str_le a b <-> a = b \/ String_as_OT.lt a b).
Proof.
  split; [| exact str_le_iff].
  unfold dict_to_tcl. destruct with_source.
  - pose proof (write_sources_Sorted data) as Hws.
    destruct (write_sources data) as [ws e]. simpl in *.
    constructor; [exact I |].
    apply Forall_app. split.
    + apply List.Forall_forall. intros w Hin.
      apply in_map_iff in Hin as (kv & <- & _). exact I.
    + constructor; [exact I | exact Hws].
  - simpl. repeat constructor. apply process_dict_Sorted.
Qed.

(** ** merge_dicts on the store *)

Module StoreFacts.
Import Store(loc, obj, store, val, VLeaf, VRef, merge_loop, repr, repr_items,
  repr_dict, node_depth, tree_depth).

Section StoreFacts.
Context {A : Type}.
Implicit Types (h hb : store A) (t : tree A).

(** Induction on configurations that reaches the nested dictionaries. *)
Lemma node_ind' (P : node A -> Prop) :
  (forall a, P (Leaf a)) ->
  (forall items, Forall (fun kv => P (snd kv)) items -> P (Dict items)) ->
  forall n, P n.
Proof.
  intros HL HD. fix IH 1. intros [a | items].
  - apply HL.
  - apply HD. induction items as [| [k n] items IHitems]; constructor.
    + apply IH.
    + exact IHitems.
Qed.

Lemma repr_Dict h items v :
  Store.repr h (Dict items) v
  <-> exists l d, v = Store.VRef l /\ h !! l = Some d /\
                  Store.repr_items h items d.
Proof.
  cbn [Store.repr].
  assert (E : forall d,
             (fix repr_items (items : tree A) (d : obj A) {struct items}
                : Prop :=
                match items, d with
                | [], [] => True
                | (k, n') :: items', (k', v') :: d' =>
                    k = k' /\ Store.repr h n' v' /\ repr_items items' d'
                | _, _ => False
                end) items d <-> Store.repr_items h items d).
  { induction items as [| [k n] items IH]; intros [| [k' v'] d];
      cbn [Store.repr_items]; try tauto.
    now rewrite IH. }
  split; intros (l & d & Hv & Hl & Hi); exists l, d; repeat split; auto;
    now apply E.
Qed.

(** Every assignment of the loop goes to the copy: a store that lies in
    the store before the loop, and does not hold the copy, lies in the
    store after it. *)
Lemma merge_loop_frame
    (merge : store A -> loc -> loc -> option (store A * loc))
    (overwrite : bool) (result : loc) (h0 : store A) :
  (forall h a b h' m, merge h a b = Some (h', m) -> h ⊆ h') ->
  h0 !! result = None ->
  forall items h hfin,
    Store.merge_loop merge overwrite result items h = Some hfin ->
    h0 ⊆ h -> is_Some (h !! result) ->
    h0 ⊆ hfin /\ is_Some (hfin !! result).
Proof.
  intros Hmerge Hres.
  induction items as [| [key value] rest IH]; intros h hfin Hrun Hsub Hin;
    cbn [Store.merge_loop] in Hrun.
  - assert (h = hfin) by congruence. subst hfin. auto.
  - destruct (h !! result) as [r |] eqn:Er; [| discriminate].
    assert (Hset : forall x,
               Store.merge_loop merge overwrite result rest
                 (<[result := x]> h) = Some hfin ->
               h0 ⊆ hfin /\ is_Some (hfin !! result)).
    { intros x Hx. apply (IH _ _ Hx).
      - now apply insert_subseteq_r.
      - rewrite lookup_insert_eq. eauto. }
    destruct (dict_get key r) as [[a | sub] |]; destruct value as [b | sub2];
      try (destruct overwrite; [now apply (Hset _ Hrun) | now apply (IH _ _ Hrun)]);
      try now apply (Hset _ Hrun).
    destruct (merge h sub sub2) as [[h' merged] |] eqn:Em; [| discriminate].
    destruct (h' !! result) as [r' |] eqn:Er'; [| discriminate].
    apply (IH _ _ Hrun).
    + apply insert_subseteq_r; [exact Hres |].
      transitivity h; [exact Hsub | now apply (Hmerge _ _ _ _ _ Em)].
    + rewrite lookup_insert_eq. eauto.
Qed.

(** [merge_dicts] changes no object of the store it is called in,
    whatever the store holds, and returns a new object. *)
Lemma merge_dicts_frame (fuel : nat) :
  forall h (dict1 dict2 : nat) (overwrite : bool) h' (r : nat),
    Store.merge_dicts fuel h dict1 dict2 overwrite = Some (h', r) ->
    h ⊆ h' /\ h !! r = None /\ is_Some (h' !! r).
Proof.
  induction fuel as [| fuel IH]; intros h dict1 dict2 overwrite h' r Hrun;
    [discriminate |].
  cbn [Store.merge_dicts] in Hrun.
  destruct (h !! dict1) as [d1 |]; [| discriminate].
  destruct (h !! dict2) as [d2 |]; [| discriminate].
  destruct (Store.merge_loop _ _ _ _ _) as [hfin |] eqn:El; [| discriminate].
  assert (hfin = h' /\ fresh (dom h) = r) as [-> <-]
    by (split; congruence).
  clear Hrun.
  assert (Hfresh : h !! fresh (dom h) = None)
    by (apply not_elem_of_dom, is_fresh).
  destruct (merge_loop_frame _ overwrite (fresh (dom h)) h
              (fun h a b h' m Hm => proj1 (IH h a b overwrite h' m Hm))
              Hfresh _ _ _ El) as [Hsub Hin].
  - now apply insert_subseteq.
  - rewrite lookup_insert_eq. eauto.
  - auto.
Qed.

(** A configuration that a store holds is held by every larger store. *)
Lemma repr_mono h h' :
  h ⊆ h' -> forall n v, repr h n v -> repr h' n v.
Proof.
  intros Hsub. induction n as [a | items IH] using node_ind'; intros v Hv.
  - exact Hv.
  - apply repr_Dict in Hv as (l & d & -> & Hl & Hi).
    apply repr_Dict. exists l, d. split; [reflexivity |].
    split; [now apply (lookup_weaken h h') |].
    clear Hl. revert d Hi. induction IH as [| [k n] items Hn _ IHitems];
      intros [| [k' v'] d]; cbn [repr_items]; try tauto.
    intros (Hk & Hv & Hrest). auto.
Qed.

Lemma repr_items_mono h h' t :
  h ⊆ h' -> forall d, repr_items h t d -> repr_items h' t d.
Proof.
  intros Hsub. induction t as [| [k n] t IH]; intros [| [k' v'] d];
    cbn [repr_items]; try tauto.
  intros (Hk & Hv & Hrest). eauto using repr_mono.
Qed.

Lemma repr_dict_mono h h' t l :
  h ⊆ h' -> repr_dict h t l -> repr_dict h' t l.
Proof.
  intros Hsub (d & Hl & Hi). exists d.
  split; [now apply (lookup_weaken h h') | now apply (repr_items_mono h h')].
Qed.

(** A dictionary object and the configuration it holds agree on every
    key. *)
Lemma repr_items_get h key t :
  forall d, repr_items h t d ->
    match dict_get key t, dict_get key d with
    | Some n, Some v => repr h n v
    | None, None => True
    | _, _ => False
    end.
Proof.
  induction t as [| [k n] t IH]; intros [| [k' v'] d]; cbn [repr_items];
    try tauto.
  intros (<- & Hv & Hrest). simpl.
  destruct (String.eqb k key); [exact Hv | now apply IH].
Qed.

Lemma repr_items_set h key n v t :
  repr h n v ->
  forall d, repr_items h t d ->
    repr_items h (dict_set key n t) (dict_set key v d).
Proof.
  intros Hnv. induction t as [| [k n'] t IH]; intros [| [k' v'] d];
    cbn [repr_items]; try tauto.
  - intros _. simpl. auto.
  - intros (<- & Hv & Hrest). simpl.
    destruct (String.eqb k key); cbn [repr_items]; auto.
Qed.

Lemma tree_depth_cons (key : string) (n : node A) (t : tree A) :
  tree_depth ((key, n) :: t) = Nat.max (node_depth n) (tree_depth t).
Proof. reflexivity. Qed.

Lemma node_depth_Dict (items : tree A) :
  node_depth (Dict items) = S (tree_depth items).
Proof. reflexivity. Qed.

(** The loop of [merge_dicts] on the store computes the loop of
    [merge_dicts] on configurations. [hb] is the part of the store that
    holds the two arguments; the part that holds the result grows with the
    objects that the nested calls allocate, and never holds the copy
    itself. *)
Lemma merge_loop_refines
    (merge : store A -> loc -> loc -> option (store A * loc))
    (overwrite : bool) (fuel : nat) (result : loc) h hb :
  (forall t2 t1 hb h l1 l2,
      tree_depth t2 < fuel -> hb ⊆ h ->
      repr_dict hb t1 l1 -> repr_dict hb t2 l2 ->
      exists h' r hb',
        merge h l1 l2 = Some (h', r) /\ h ⊆ h' /\ hb ⊆ hb' /\ hb' ⊆ h' /\
        (forall l, is_Some (hb' !! l) -> is_Some (h !! l) -> is_Some (hb !! l)) /\
        h !! r = None /\
        repr_dict hb' (merge_dicts t1 t2 overwrite) r) ->
  h !! result = None ->
  forall t2 d2 tacc hcur hbcur r,
    tree_depth t2 <= fuel ->
    repr_items hb t2 d2 ->
    h ⊆ hcur -> hb ⊆ hbcur -> hbcur ⊆ hcur ->
    hbcur !! result = None -> hcur !! result = Some r ->
    repr_items hbcur tacc r ->
    (forall l, is_Some (hbcur !! l) -> is_Some (h !! l) -> is_Some (hb !! l)) ->
    exists hfin hbfin rfin,
      merge_loop merge overwrite result d2 hcur = Some hfin /\
      h ⊆ hfin /\ hb ⊆ hbfin /\ hbfin ⊆ hfin /\
      hbfin !! result = None /\ hfin !! result = Some rfin /\
      repr_items hbfin (merge_dicts tacc t2 overwrite) rfin /\
      (forall l, is_Some (hbfin !! l) -> is_Some (h !! l) -> is_Some (hb !! l)).
Proof.
  intros Hmerge Hres.
  induction t2 as [| [key n2] t2 IH];
    intros [| [key' v2] d2] tacc hcur hbcur r Hdepth Hd2 Hh Hhb Hsub Hbres
      Hcres Hacc Hnew; cbn [repr_items] in Hd2; try tauto.
  - exists hcur, hbcur, r. cbn [merge_loop]. rewrite merge_dicts_nil. auto 10.
  - destruct Hd2 as (<- & Hn2 & Hd2).
    rewrite tree_depth_cons in Hdepth.
    rewrite merge_dicts_cons. cbn [merge_loop]. rewrite Hcres.
    pose proof (repr_items_get hbcur key tacc r Hacc) as Hget.
    assert (Hn2' : repr hbcur n2 v2) by now apply (repr_mono hb hbcur).
    (* the step that assigns the item of the second dictionary *)
    assert (Hassign :
      exists hfin hbfin rfin,
        merge_loop merge overwrite result d2
          (<[result := dict_set key v2 r]> hcur) = Some hfin /\
        h ⊆ hfin /\ hb ⊆ hbfin /\ hbfin ⊆ hfin /\
        hbfin !! result = None /\ hfin !! result = Some rfin /\
        repr_items hbfin (merge_dicts (dict_set key n2 tacc) t2 overwrite) rfin /\
        (forall l, is_Some (hbfin !! l) -> is_Some (h !! l) ->
                   is_Some (hb !! l))).
    { apply (IH d2 _ _ hbcur (dict_set key v2 r)); auto; try lia.
      - now apply insert_subseteq_r.
      - now apply insert_subseteq_r.
      - apply lookup_insert_eq.
      - now apply repr_items_set. }
    (* the step that keeps the entry of the first dictionary *)
    assert (Hkeep :
      exists hfin hbfin rfin,
        merge_loop merge overwrite result d2 hcur = Some hfin /\
        h ⊆ hfin /\ hb ⊆ hbfin /\ hbfin ⊆ hfin /\
        hbfin !! result = None /\ hfin !! result = Some rfin /\
        repr_items hbfin (merge_dicts tacc t2 overwrite) rfin /\
        (forall l, is_Some (hbfin !! l) -> is_Some (h !! l) ->
                   is_Some (hb !! l))).
    { apply (IH d2 _ _ hbcur r); auto; lia. }
    unfold merge_item.
    destruct (dict_get key tacc) as [[a | sub] |];
      destruct (dict_get key r) as [[a' | lsub] |]; cbn [repr] in Hget;
      try contradiction; try discriminate Hget; try exact Hassign;
      try (apply repr_Dict in Hget as (? & ? & ? & _); discriminate).
    + (* a terminal value in the result *)
      destruct n2 as [b | sub2]; cbn [repr] in Hn2'.
      * subst v2. destruct overwrite; assumption.
      * apply repr_Dict in Hn2' as (l2' & ? & -> & _).
        destruct overwrite; assumption.
    + (* a dictionary in the result *)
      destruct n2 as [b | sub2].
      * cbn [repr] in Hn2'. subst v2. destruct overwrite; assumption.
      * apply repr_Dict in Hn2' as (l2' & ds2 & -> & Hl2 & Hi2).
        apply repr_Dict in Hget as (ls & ds & [= <-] & Hls & His).
        rewrite node_depth_Dict in Hdepth.
        destruct (Hmerge sub2 sub hbcur hcur lsub l2')
          as (h' & m & hb' & -> & Hh' & Hhb' & Hsub' & Hnew' & Hm & Hrep);
          [lia | exact Hsub | now exists ds | now exists ds2 |].
        assert (Hres' : h' !! result = Some r)
          by now apply (lookup_weaken hcur h').
        rewrite Hres'.
        assert (Hbres' : hb' !! result = None).
        { destruct (hb' !! result) eqn:E; [| reflexivity].
          destruct (Hnew' result) as [x Hx]; eauto. congruence. }
        apply (IH d2 _ _ hb' (dict_set key (VRef m) r)); auto; try lia.
        -- apply insert_subseteq_r; [exact Hres |]. now transitivity hcur.
        -- now transitivity hbcur.
        -- now apply insert_subseteq_r.
        -- apply lookup_insert_eq.
        -- apply repr_items_set.
           ++ apply repr_Dict. destruct Hrep as (dm & Hdm & Him).
              now exists m, dm.
           ++ now apply (repr_items_mono hbcur hb').
        -- intros l Hin1 Hin2. apply Hnew; [| exact Hin2].
           apply Hnew'; [exact Hin1 |].
           destruct Hin2 as [x Hx]. exists x.
           now apply (lookup_weaken h hcur).
Qed.


(** [merge_dicts] on the store computes [merge_dicts] on the
    configurations that its two arguments hold, whenever it has more fuel
    than the second argument has levels. *)
Lemma merge_dicts_refines (fuel : nat) :
  forall t2 t1 hb h (l1 l2 : loc) (overwrite : bool),
    tree_depth t2 < fuel -> hb ⊆ h ->
    repr_dict hb t1 l1 -> repr_dict hb t2 l2 ->
    exists h' r hb',
      Store.merge_dicts fuel h l1 l2 overwrite = Some (h', r) /\
      h ⊆ h' /\ hb ⊆ hb' /\ hb' ⊆ h' /\
      (forall l, is_Some (hb' !! l) -> is_Some (h !! l) -> is_Some (hb !! l)) /\
      h !! r = None /\
      repr_dict hb' (merge_dicts t1 t2 overwrite) r.
Proof.
  induction fuel as [| fuel IH];
    intros t2 t1 hb h l1 l2 overwrite Hdepth Hsub (d1 & Hl1 & Hi1)
      (d2 & Hl2 & Hi2); [lia |].
  cbn [Store.merge_dicts].
  rewrite (lookup_weaken hb h _ _ Hl1 Hsub), (lookup_weaken hb h _ _ Hl2 Hsub).
  set (result := fresh (dom h)).
  assert (Hres : h !! result = None) by (apply not_elem_of_dom, is_fresh).
  destruct (merge_loop_refines
              (fun h a b => Store.merge_dicts fuel h a b overwrite)
              overwrite fuel result h hb
              (fun t2 t1 hb h l1 l2 => IH t2 t1 hb h l1 l2 overwrite)
              Hres t2 d2 t1 (<[result := d1]> h) hb d1)
    as (hfin & hbfin & rfin & -> & Hh & Hhb & Hfin & Hbres & Hfres & Hrep & Hnew);
    auto; try lia.
  - now apply insert_subseteq.
  - apply insert_subseteq_r; [now apply (lookup_weaken_None hb h) | exact Hsub].
  - now apply (lookup_weaken_None hb h).
  - apply lookup_insert_eq.
  - exists hfin, result, (<[result := rfin]> hbfin).
    split; [reflexivity |]. split; [exact Hh |].
    split; [apply insert_subseteq_r;
            [now apply (lookup_weaken_None hb h) | exact Hhb] |].
    split; [now apply insert_subseteq_l |].
    split; [| split; [exact Hres |]].
    + intros l Hin1 Hin2. destruct (decide (result = l)) as [<- | Hne].
      * rewrite Hres in Hin2. now destruct Hin2.
      * rewrite lookup_insert_ne in Hin1 by exact Hne. auto.
    + exists rfin. split; [apply lookup_insert_eq |].
      apply (repr_items_mono hbfin); [now apply insert_subseteq | exact Hrep].
Qed.

(** C6: called on the references of two configurations, [merge_dicts]
    returns, with any fuel above the depth of the second one, a reference
    to an object that the store did not hold; every object of the store
    before the call is in the store after the call as it was, so the two
    arguments hold the configurations they held; and the object returned
    holds the merge of the two configurations. *)
Theorem merge_dicts_no_mutation (h : store A) (l1 l2 : loc)
    (t1 t2 : tree A) (overwrite : bool) (fuel : nat) :
  repr_dict h t1 l1 -> repr_dict h t2 l2 -> tree_depth t2 < fuel ->
  exists h' r,
    Store.merge_dicts fuel h l1 l2 overwrite = Some (h', r) /\
    h ⊆ h' /\ h !! r = None /\
    repr_dict h' (merge_dicts t1 t2 overwrite) r /\
    repr_dict h' t1 l1 /\ repr_dict h' t2 l2.
Proof.
  intros H1 H2 Hdepth.
  destruct (merge_dicts_refines fuel t2 t1 h h l1 l2 overwrite)
    as (h' & r & hb' & Hrun & Hh & _ & Hsub & _ & Hr & Hrep); auto.
  exists h', r. split; [exact Hrun |]. split; [exact Hh |].
  split; [exact Hr |]. split; [now apply (repr_dict_mono hb') |].
  split; now apply (repr_dict_mono h).
Qed.


End StoreFacts.

Lemma merge_dicts_no_mutation_witness :
  let h : store Z :=
    <[0 := [("a", VLeaf 1%Z); ("b", VRef 2)]]>
      (<[1 := [("b", VRef 3); ("e", VLeaf 4%Z)]]>
         (<[2 := [("c", VLeaf 2%Z)]]> (<[3 := [("d", VLeaf 3%Z)]]> ∅))) in
  let t1 := [("a", Leaf 1%Z); ("b", Dict [("c", Leaf 2%Z)])] in
  let t2 := [("b", Dict [("d", Leaf 3%Z)]); ("e", Leaf 4%Z)] in
  exists h' r,
    Store.merge_dicts 2 h 0 1 true = Some (h', r) /\
    h ⊆ h' /\ h !! r = None /\
    repr_dict h' (merge_dicts t1 t2 true) r /\
    repr_dict h' t1 0 /\ repr_dict h' t2 1.
Proof.
  intros h t1 t2.
  apply (merge_dicts_no_mutation h 0 1 t1 t2 true 2).
  - eexists. split; [reflexivity |].
    cbn. repeat split. eexists _, _. repeat split.
  - eexists. split; [reflexivity |].
    cbn. repeat split. eexists _, _. repeat split.
  - cbn. lia.
Defined.

End StoreFacts.

(** * Further properties *)

Example tcl_to_dict_doc :
  tcl_to_dict
    [("var", TclScalar (Some "1"));
     ("a", TclArray [("b,c,d", Some "2")]);
     ("arr", TclArray [("x", Some "{1 2 3}")])]
  = [("var", Leaf (Scalar "1"));
     ("a", Dict [("b", Dict [("c", Dict [("d", Leaf (Scalar "2"))])])]);
     ("arr", Dict [("x", Leaf (VList [Scalar "1"; Scalar "2"; Scalar "3"]))])].
Proof. reflexivity. Qed.

(** ** More on dictionaries *)

Section DictMore.
Context {V : Type}.
Implicit Types (d : list (string * V)) (k key : string) (v : V).

Lemma dict_has_In key d : dict_has key d = true <-> In key (map fst d).
Proof.
  unfold dict_has. split.
  - destruct (dict_get key d) eqn:E; [| discriminate].
    intros _. now apply dict_get_some_in in E.
  - intros Hin. now destruct (dict_get_present _ _ Hin) as [v ->].
Qed.

Lemma dict_keys_set key v d :
  map fst (dict_set key v d)
  = if dict_has key d then map fst d else map fst d ++ [key].
Proof.
  unfold dict_has. induction d as [| [k x] d IH]; simpl; [reflexivity |].
  destruct (String.eqb k key) eqn:E; simpl; [reflexivity |].
  rewrite IH. now destruct (dict_get key d).
Qed.

Lemma dict_set_same key v d : dict_get key d = Some v -> dict_set key v d = d.
Proof.
  induction d as [| [k x] d IH]; simpl; [discriminate |].
  destruct (String.eqb k key); [now intros [= ->] |].
  intros H. now rewrite IH.
Qed.

Lemma dict_set_set key v v' d :
  dict_set key v' (dict_set key v d) = dict_set key v' d.
Proof.
  induction d as [| [k x] d IH]; simpl.
  - now rewrite String.eqb_refl.
  - destruct (String.eqb k key) eqn:E; simpl; rewrite E; [reflexivity |].
    now rewrite IH.
Qed.

Lemma dict_get_in_wf key v d :
  List.NoDup (map fst d) -> In (key, v) d -> dict_get key d = Some v.
Proof.
  induction d as [| [k x] d IH]; simpl; [easy |].
  intros Hnd [[= -> ->] | Hin].
  - now rewrite String.eqb_refl.
  - apply NoDup_cons_iff in Hnd as [Hk Hnd].
    destruct (String.eqb k key) eqn:E; [| now apply IH].
    apply String.eqb_eq in E. subst k. exfalso. apply Hk.
    apply in_map_iff. now exists (key, v).
Qed.

End DictMore.

(** ** More on merge_dicts *)

Section MergeMore.
Context {A : Type}.
Implicit Types (base incoming t : tree A) (overwrite : bool).

Lemma merge_item_keys overwrite base key (value : node A) :
  map fst (merge_item overwrite base key value)
  = if dict_has key base then map fst base else map fst base ++ [key].
Proof.
  unfold merge_item, dict_has.
  destruct (dict_get key base) as [[a | sub] |] eqn:E; destruct value;
    try destruct overwrite; rewrite ?dict_keys_set; unfold dict_has;
    rewrite ?E; reflexivity.
Qed.

Lemma merge_item_has overwrite base key (value : node A) k :
  key <> k ->
  dict_has k (merge_item overwrite base key value) = dict_has k base.
Proof.
  intros Hne. unfold dict_has. now rewrite merge_item_other.
Qed.

(** X1: the keys of a merge are the keys of the first dictionary, in
    their order, followed by the keys that only the second dictionary has,
    in the order of the second dictionary. *)
Theorem merge_dicts_keys incoming :
  forall base overwrite,
    dict_wf incoming ->
    map fst (merge_dicts base incoming overwrite)
    = map fst base
      ++ List.filter (fun k => negb (dict_has k base)) (map fst incoming).
Proof.
  induction incoming as [| [key value] rest IH]; intros base overwrite Hwf.
  - rewrite merge_dicts_nil. simpl. now rewrite app_nil_r.
  - unfold dict_wf in Hwf. simpl in Hwf.
    apply NoDup_cons_iff in Hwf as [Hk Hwf].
    rewrite merge_dicts_cons, IH by exact Hwf.
    rewrite merge_item_keys. simpl.
    assert (Hfilter :
      List.filter
        (fun k => negb (dict_has k (merge_item overwrite base key value)))
        (map fst rest)
      = List.filter (fun k => negb (dict_has k base)) (map fst rest)).
    { apply filter_ext_in. intros k Hin. rewrite merge_item_has; [reflexivity |].
      intros ->. contradiction. }
    rewrite Hfilter. destruct (dict_has key base); simpl; [reflexivity |].
    now rewrite <- app_assoc.
Qed.

Lemma node_wf_Dict (items : tree A) :
  node_wf (Dict items)
  <-> List.NoDup (map fst items) /\ Forall (fun kv => node_wf (snd kv)) items.
Proof.
  cbn [node_wf].
  assert (E :
    (fix all_wf (items : tree A) : Prop :=
       match items with
       | [] => True
       | (_, n') :: items' => node_wf n' /\ all_wf items'
       end) items <-> Forall (fun kv => node_wf (snd kv)) items).
  { induction items as [| [k n] items IH]; [split; auto |].
    split.
    - intros [Hn Hr]. constructor; [exact Hn | now apply IH].
    - intros H. inversion H; subst. split; [assumption | now apply IH]. }
  now rewrite E.
Qed.

Lemma merge_dicts_self_node (n : node A) :
  forall overwrite,
    node_wf n ->
    match n with
    | Dict t => merge_dicts t t overwrite = t
    | Leaf _ => True
    end.
Proof.
  induction n as [a | items IH] using StoreFacts.node_ind'; intros overwrite Hwf;
    [exact I |].
  apply node_wf_Dict in Hwf as [Hnd Hall].
  assert (Hsuf : forall suf, incl suf items ->
                             merge_dicts items suf overwrite = items).
  { induction suf as [| [k v] suf IHsuf]; intros Hincl; [reflexivity |].
    rewrite merge_dicts_cons.
    assert (Hin : In (k, v) items) by (apply Hincl; now left).
    assert (Hitem : merge_item overwrite items k v = items).
    { unfold merge_item. rewrite (dict_get_in_wf _ _ _ Hnd Hin).
      destruct v as [a | sub].
      - destruct overwrite; [| reflexivity].
        now apply dict_set_same, dict_get_in_wf.
      - rewrite List.Forall_forall in IH, Hall.
        rewrite (IH _ Hin overwrite (Hall _ Hin)).
        now apply dict_set_same, dict_get_in_wf. }
    rewrite Hitem. apply IHsuf. intros x Hx. apply Hincl. now right. }
  apply Hsuf. apply incl_refl.
Qed.

(** X2: for a configuration with distinct keys at every level, merging
    with the empty dictionary on either side gives the configuration back,
    and so does merging it with itself, whatever the overwrite flag. *)
Theorem merge_dicts_identity_idempotent t overwrite :
  tree_wf t ->
  merge_dicts t [] overwrite = t /\
  merge_dicts [] t overwrite = t /\
  merge_dicts t t overwrite = t.
Proof.
  intros Hwf. split; [reflexivity |]. split.
  - apply merge_dicts_empty_l. now apply node_wf_Dict in Hwf as [Hnd _].
  - exact (merge_dicts_self_node (Dict t) overwrite Hwf).
Qed.

End MergeMore.

Lemma merge_dicts_keys_witness :
  map fst
    (merge_dicts [("a", Leaf 1%Z); ("b", Leaf 2%Z)]
       [("c", Leaf 3%Z); ("a", Leaf 4%Z); ("d", Leaf 5%Z)] false)
  = ["a"; "b"; "c"; "d"].
Proof.
  apply (merge_dicts_keys
           [("c", Leaf 3%Z); ("a", Leaf 4%Z); ("d", Leaf 5%Z)]
           [("a", Leaf 1%Z); ("b", Leaf 2%Z)] false).
  unfold dict_wf. simpl. repeat constructor; simpl; intuition discriminate.
Defined.

Lemma merge_dicts_identity_idempotent_witness :
  let t := [("a", Leaf 1%Z); ("b", Dict [("c", Leaf 2%Z); ("d", Leaf 3%Z)])] in
  merge_dicts t [] true = t /\ merge_dicts [] t true = t /\
  merge_dicts t t true = t.
Proof.
  intros t. apply (merge_dicts_identity_idempotent t true).
  unfold tree_wf, t. simpl.
  repeat split; repeat constructor; simpl; intuition discriminate.
Defined.

(** ** More on set_nested_dict *)

(** X3: a second call on the same key path replaces the value of the
    first call and changes nothing else: it succeeds, and it leaves the
    dictionary that the second call alone would have given. *)
Theorem set_nested_dict_overwrite {A : Type} (keys : list string) :
  forall (d d1 : tree A) (v1 v2 : node A),
    set_nested_dict d keys v1 = inr d1 ->
    exists d2, set_nested_dict d1 keys v2 = inr d2 /\
               set_nested_dict d keys v2 = inr d2.
Proof.
  induction keys as [| key rest IH]; intros d d1 v1 v2 H; [discriminate |].
  destruct rest as [| k2 rest].
  - cbn [set_nested_dict] in *. injection H as <-.
    exists (dict_set key v2 d). now rewrite dict_set_set.
  - assert (Hrest : k2 :: rest <> []) by discriminate.
    remember (k2 :: rest) as rest' eqn:Erest. clear Erest k2 rest.
    rewrite set_nested_dict_cons in H |- * by exact Hrest.
    rewrite (set_nested_dict_cons d) by exact Hrest.
    destruct (dict_get key d) as [[a | sub] |] eqn:Eget; [discriminate | |].
    + destruct (set_nested_dict sub rest' v1) as [e | sub1] eqn:E1;
        [discriminate |].
      injection H as <-. rewrite dict_get_set_eq.
      destruct (IH _ _ _ v2 E1) as (sub2 & -> & ->).
      exists (dict_set key (Dict sub2) d). now rewrite dict_set_set.
    + destruct (set_nested_dict [] rest' v1) as [e | sub1] eqn:E1;
        [discriminate |].
      injection H as <-. rewrite dict_get_set_eq.
      destruct (IH _ _ _ v2 E1) as (sub2 & -> & ->).
      exists (dict_set key (Dict sub2) d). now rewrite dict_set_set.
Qed.

Lemma set_nested_dict_overwrite_witness :
  exists d2,
    set_nested_dict [("x", Leaf 0%Z); ("a", Dict [("b", Leaf 1%Z)])]
      ["a"; "b"] (Leaf 2%Z) = inr d2 /\
    set_nested_dict [("x", Leaf 0%Z)] ["a"; "b"] (Leaf 2%Z) = inr d2.
Proof.
  apply (set_nested_dict_overwrite ["a"; "b"] [("x", Leaf 0%Z)]
           [("x", Leaf 0%Z); ("a", Dict [("b", Leaf 1%Z)])]
           (Leaf 1%Z) (Leaf 2%Z)).
  reflexivity.
Defined.

(** ** Key paths and variable names *)

Lemma string_of_list_ascii_app (l l' : list ascii) :
  string_of_list_ascii (l ++ l')
  = (string_of_list_ascii l ++ string_of_list_ascii l')%string.
Proof.
  induction l as [| a l IH]; [reflexivity |].
  change (String a (string_of_list_ascii (l ++ l'))
          = String a (string_of_list_ascii l ++ string_of_list_ascii l')%string).
  now rewrite IH.
Qed.

Lemma append_nil_r (s : string) : (s ++ "")%string = s.
Proof.
  induction s as [| a s IH]; [reflexivity |].
  change (String a (s ++ "")%string = String a s). now rewrite IH.
Qed.

(** The fields of [split_on], the field being read given apart. *)
Lemma split_on_aux_eq (c : ascii) (s : string) :
  forall cur,
    split_on_aux c s cur
    = (string_of_list_ascii (rev cur) ++ hd "" (split_on c s))%string
      :: tl (split_on c s).
Proof.
  unfold split_on. induction s as [| a s IH]; intros cur; cbn [split_on_aux].
  - cbn [hd tl rev string_of_list_ascii]. now rewrite append_nil_r.
  - destruct (Ascii.eqb a c).
    + cbn [hd tl rev string_of_list_ascii]. now rewrite append_nil_r.
    + rewrite (IH (a :: cur)), (IH [a]). cbn [hd tl rev app].
      rewrite string_of_list_ascii_app, append_assoc_str. reflexivity.
Qed.

Lemma split_on_cons (c a : ascii) (s : string) :
  split_on c (String a s)
  = if Ascii.eqb a c then "" :: split_on c s
    else String a (hd "" (split_on c s)) :: tl (split_on c s).
Proof.
  unfold split_on at 1. cbn [split_on_aux].
  destruct (Ascii.eqb a c); [reflexivity |].
  now rewrite split_on_aux_eq.
Qed.

Lemma split_on_not_nil (c : ascii) (s : string) : split_on c s <> [].
Proof.
  destruct s as [| a s]; [discriminate |].
  rewrite split_on_cons. now destruct (Ascii.eqb a c).
Qed.

Lemma join_cons (sep h : string) (t : list string) :
  t <> [] -> join sep (h :: t) = (h ++ sep ++ join sep t)%string.
Proof. destruct t; [congruence | reflexivity]. Qed.

(** Joining the fields of a split with the separator gives the text back. *)
Lemma join_split_on (c : ascii) (s : string) :
  join (String c "") (split_on c s) = s.
Proof.
  induction s as [| a s IH]; [reflexivity |].
  rewrite split_on_cons. destruct (Ascii.eqb a c) eqn:E.
  - apply Ascii.eqb_eq in E. subst a.
    rewrite join_cons by apply split_on_not_nil. now rewrite IH.
  - pose proof (split_on_not_nil c s) as Hne.
    destruct (split_on c s) as [| h t]; [congruence |].
    cbn [hd tl]. destruct t as [| h' t].
    + cbn [join String.concat] in *. now rewrite IH.
    + rewrite join_cons by discriminate. rewrite join_cons in IH by discriminate.
      change (String a (h ++ String c "" ++ join (String c "") (h' :: t))%string
              = String a s).
      now rewrite IH.
Qed.

(** A text without the separator is the first field of what it starts. *)
Lemma split_on_first (c : ascii) (k t : string) :
  contains c k = false ->
  split_on c (k ++ String c t) = k :: split_on c t.
Proof.
  induction k as [| a k IH]; intros Hk.
  - change (split_on c (String c t) = "" :: split_on c t).
    now rewrite split_on_cons, Ascii.eqb_refl.
  - simpl in Hk. apply orb_false_iff in Hk as [Ha Hk].
    change (split_on c (String a (k ++ String c t)) = String a k :: split_on c t).
    now rewrite split_on_cons, Ha, IH.
Qed.

Lemma split_on_single (c : ascii) (k : string) :
  contains c k = false -> split_on c k = [k].
Proof.
  induction k as [| a k IH]; intros Hk; [reflexivity |].
  simpl in Hk. apply orb_false_iff in Hk as [Ha Hk].
  now rewrite split_on_cons, Ha, IH.
Qed.

Lemma split_on_join (c : ascii) (parts : list string) :
  parts <> [] -> Forall (fun k => contains c k = false) parts ->
  split_on c (join (String c "") parts) = parts.
Proof.
  induction parts as [| k parts IH]; intros Hne Hall; [congruence |].
  inversion Hall as [| ? ? Hk Hparts]; subst.
  destruct parts as [| k' parts].
  - now apply split_on_single.
  - rewrite join_cons by discriminate.
    change (k ++ String c "" ++ join (String c "") (k' :: parts))%string
      with (k ++ String c (join (String c "") (k' :: parts)))%string.
    rewrite split_on_first by exact Hk. now rewrite IH.
Qed.

(** X4: the key of an array element that joins nested keys with commas is
    split back into these keys, when no key holds a comma or has
    whitespace at its ends. *)
Theorem key_parts_join (keys : list string) :
  keys <> [] ->
  Forall (fun k => contains comma k = false /\ strip k = k) keys ->
  key_parts (join "," keys) = keys.
Proof.
  intros Hne Hall. unfold key_parts.
  change "," with (String comma "").
  rewrite split_on_join; [| exact Hne |].
  - clear Hne. induction Hall as [| k keys [_ Hk] _ IH]; [reflexivity |].
    cbn [map]. now rewrite Hk, IH.
  - eapply List.Forall_impl; [| exact Hall]. now intros k [Hk _].
Qed.

Lemma key_parts_join_witness : key_parts "b,c,d" = ["b"; "c"; "d"].
Proof.
  apply (key_parts_join ["b"; "c"; "d"]); [discriminate |].
  repeat constructor.
Defined.

Lemma nonempty_append_l (p q : string) :
  nonempty p = true -> nonempty (p ++ q) = true.
Proof. destruct p; [discriminate | reflexivity]. Qed.

(** The prefix that [process_dict] hands down is the comma-joined path. *)
Lemma fold_child_name (ks : list string) :
  forall p, nonempty p = true -> fold_left child_name ks p = join "," (p :: ks).
Proof.
  induction ks as [| k ks IH]; intros p Hp; [reflexivity |].
  cbn [fold_left]. unfold child_name at 2. rewrite Hp.
  rewrite IH by now apply nonempty_append_l.
  destruct ks as [| k' ks]; [reflexivity |].
  rewrite !join_cons by discriminate.
  now rewrite !append_assoc_str.
Qed.

(** The statement written for a value set at a key path in an empty
    dictionary. *)
Lemma nested_statement (v : Value) (keys : list string) :
  forall prefix,
    keys <> [] ->
    exists d,
      set_nested_dict [] keys (Leaf v) = inr d /\
      process_dict d prefix
      = [("set "
          ++ var_name_of (fold_left child_name (removelast keys) prefix)
               (List.last keys "")
          ++ " " ++ python_value2tcl_value v)%string].
Proof.
  induction keys as [| k keys IH]; intros prefix Hne; [congruence |].
  destruct keys as [| k2 keys].
  - exists [(k, Leaf v)]. split; reflexivity.
  - destruct (IH (child_name prefix k)) as (sub & Hset & Hlines);
      [discriminate |].
    exists [(k, Dict sub)]. split.
    + rewrite set_nested_dict_cons by discriminate. cbn [dict_get].
      now rewrite Hset.
    + rewrite process_dict_eq. cbn [flat_map]. rewrite Hlines. reflexivity.
Qed.

(** X5: a value set at a key path in an empty dictionary is written by
    [process_dict] as one statement: the variable is the first key, and
    the keys that follow, joined with commas, are its array element; a
    path of one key gives a plain variable. The first key is not empty and
    holds no comma. *)
Theorem nested_key_statement (k0 : string) (rest : list string) (v : Value) :
  nonempty k0 = true -> contains comma k0 = false ->
  exists d,
    set_nested_dict [] (k0 :: rest) (Leaf v) = inr d /\
    process_dict d ""
    = [("set "
        ++ match rest with
           | [] => k0
           | _ => (k0 ++ "(" ++ join "," rest ++ ")")%string
           end
        ++ " " ++ python_value2tcl_value v)%string].
Proof.
  intros Hk Hc.
  destruct (nested_statement v (k0 :: rest) "") as (d & Hset & Hlines);
    [discriminate |].
  exists d. split; [exact Hset |]. rewrite Hlines. do 3 f_equal.
  unfold var_name_of.
  assert (Hname :
    child_name (fold_left child_name (removelast (k0 :: rest)) "")
      (List.last (k0 :: rest) "")
    = join "," (k0 :: rest)).
  { rewrite <- (fold_child_name rest k0 Hk).
    change (fold_left child_name rest k0)
      with (fold_left child_name (k0 :: rest) "").
    rewrite (app_removelast_last "" (l := k0 :: rest)) at 3 by discriminate.
    now rewrite fold_left_app. }
  rewrite Hname. destruct rest as [| k1 rest].
  - cbn [join String.concat]. now rewrite Hc.
  - rewrite join_cons by discriminate.
    change (k0 ++ "," ++ join "," (k1 :: rest))%string
      with (k0 ++ String comma (join "," (k1 :: rest)))%string.
    rewrite contains_append. cbn [contains]. rewrite Ascii.eqb_refl.
    rewrite orb_true_r. rewrite split_on_first by exact Hc.
    cbn [hd tl].
    change "," with (String comma "") at 1.
    now rewrite join_split_on.
Qed.

Lemma nested_key_statement_witness :
  exists d,
    set_nested_dict [] ["a"; "b"; "c"] (Leaf (Scalar "1")) = inr d /\
    process_dict d "" = ["set a(b,c) 1"].
Proof.
  exact (nested_key_statement "a" ["b"; "c"] (Scalar "1") eq_refl eq_refl).
Defined.

(** ** dict_to_tcl and dict_to_tcl_with_source *)

Lemma flat_map_Permutation {X Y : Type} (f g : X -> list Y) (l : list X) :
  Forall (fun x => Permutation (f x) (g x)) l ->
  Permutation (flat_map f l) (flat_map g l).
Proof.
  induction 1 as [| x l Hx _ IH]; simpl; [constructor |].
  now apply Permutation_app.
Qed.

Lemma process_item_with_source_perm (value : node Value) :
  forall prefix key,
    Permutation (process_item prefix key value)
      (process_item_with_source prefix key value).
Proof.
  induction value as [v | items IH] using StoreFacts.node_ind';
    intros prefix key; cbn [process_item process_item_with_source];
    [reflexivity |].
  rewrite <- sorted_Permutation. apply flat_map_Permutation.
  eapply List.Forall_impl; [| exact IH]. intros kv Hkv. apply Hkv.
Qed.

Lemma process_dict_with_source_sorted (d : tree Value) (prefix : string) :
  process_dict d prefix = sorted (process_dict_with_source d prefix).
Proof.
  unfold process_dict, process_dict_with_source. apply sorted_perm_eq.
  apply flat_map_Permutation. apply List.Forall_forall.
  intros kv _. apply process_item_with_source_perm.
Qed.

(** X6: [dict_to_tcl] with sources and [dict_to_tcl_with_source] write
    the same header and banners and raise alike; the block of statements of
    every source in [dict_to_tcl] is the sorted block of
    [dict_to_tcl_with_source], which keeps the order of the keys. *)
Theorem dict_to_tcl_with_source_sorted (data : tree Value) :
  fst (dict_to_tcl data true)
  = map (fun w => match w with
                  | WLines tcl_lines => WLines (sorted tcl_lines)
                  | _ => w
                  end) (fst (dict_to_tcl_with_source data))
  /\ snd (dict_to_tcl data true) = snd (dict_to_tcl_with_source data).
Proof.
  unfold dict_to_tcl, dict_to_tcl_with_source.
  assert (H : fst (write_sources data)
              = map (fun w => match w with
                              | WLines tcl_lines => WLines (sorted tcl_lines)
                              | _ => w
                              end) (fst (write_sources_with_source data))
              /\ snd (write_sources data)
                 = snd (write_sources_with_source data)).
  { induction data as [| [source_name [v | source_dict]] rest IH];
      cbn [write_sources write_sources_with_source]; [now split | now split |].
    destruct (write_sources rest) as [ws e].
    destruct (write_sources_with_source rest) as [ws' e'].
    cbn [fst snd map] in *. destruct IH as [-> ->].
    now rewrite process_dict_with_source_sorted. }
  destruct (write_sources data) as [ws e].
  destruct (write_sources_with_source data) as [ws' e'].
  cbn [fst snd] in *. destruct H as [-> ->]. split; [| reflexivity].
  cbn [map app]. f_equal. rewrite map_app, map_map. cbn [map app].
  reflexivity.
Qed.

Lemma process_item_config_perm :
  (forall n n' : node Value,
      config_perm n n' ->
      forall prefix key,
        Permutation (process_item prefix key n) (process_item prefix key n'))
  /\
  (forall t t' : tree Value,
      items_perm t t' ->
      forall prefix,
        Permutation
          (flat_map (fun kv => process_item prefix (fst kv) (snd kv)) t)
          (flat_map (fun kv => process_item prefix (fst kv) (snd kv)) t')).
Proof.
  assert (Hn : forall n n' : node Value,
             config_perm n n' ->
             forall prefix key,
               Permutation (process_item prefix key n)
                 (process_item prefix key n')).
  { fix IHn 3. intros n n' H. destruct H as [a | items items' items'' Hp Hi].
    - reflexivity.
    - intros prefix key. cbn [process_item].
      rewrite <- !sorted_Permutation.
      transitivity
        (flat_map
           (fun kv => process_item (child_name prefix key) (fst kv) (snd kv))
           items');
        [now apply Permutation_flat_map |].
      generalize (child_name prefix key) as p. clear Hp.
      induction Hi as [| k m m' t t' Hm Ht IHt]; intros p; [reflexivity |].
      cbn [flat_map fst snd]. apply Permutation_app; [| apply IHt].
      now apply IHn. }
  split; [exact Hn |].
  induction 1 as [| k m m' t t' Hm Ht IHt]; intros prefix; [reflexivity |].
  cbn [flat_map fst snd]. apply Permutation_app; [now apply Hn | apply IHt].
Qed.

(** X7: [process_dict] gives the same lines for two configurations that
    hold the same entries, whatever the order of the keys at any level. *)
Theorem process_dict_key_order (d d' : tree Value) (prefix : string) :
  config_perm (Dict d) (Dict d') ->
  process_dict d prefix = process_dict d' prefix.
Proof.
  intros H. inversion H as [| items items' items'' Hp Hi]; subst.
  unfold process_dict. apply sorted_perm_eq.
  transitivity
    (flat_map (fun kv => process_item prefix (fst kv) (snd kv)) items');
    [now apply Permutation_flat_map |].
  now apply (proj2 process_item_config_perm).
Qed.

Lemma process_dict_key_order_witness :
  process_dict
    [("b", Leaf (Scalar "2")); ("a", Dict [("y", Leaf (Scalar "1"));
                                           ("x", Leaf (Scalar "0"))])] ""
  = process_dict
      [("a", Dict [("x", Leaf (Scalar "0")); ("y", Leaf (Scalar "1"))]);
       ("b", Leaf (Scalar "2"))] "".
Proof.
  apply process_dict_key_order.
  eapply cp_dict; [apply perm_swap |].
  repeat constructor.
  eapply cp_dict; [apply perm_swap |]. repeat constructor.
Defined.

(** ** More on process_config_inputs *)

Section AggregateMore.
Context {A : Type}.
Variable tcl_to_dict : string -> option (tree A).
Variable yaml_to_dict : string -> option (tree A).
Variable ext_lower : string -> string.

Lemma process_input_eq (n i : nat) (merged : tree A)
    (sources : list (string * tree A)) (input_item : config_input A) :
  process_input tcl_to_dict yaml_to_dict ext_lower n i (merged, sources)
    input_item
  = match input_dict tcl_to_dict yaml_to_dict ext_lower input_item with
    | None => (merged, sources)
    | Some current_dict =>
        (match merged with
         | [] => current_dict
         | _ => merge_dicts merged current_dict true
         end,
         dict_set
           match input_item with
           | InDict _ => source_name_of i n
           | InFile path => path
           end current_dict sources)
    end.
Proof.
  unfold process_input, input_dict. destruct input_item as [d | path];
    [reflexivity |].
  destruct (String.eqb (ext_lower path) ".tcl").
  - now destruct (tcl_to_dict path).
  - destruct (String.eqb (ext_lower path) ".yaml"
              || String.eqb (ext_lower path) ".yml"); [| reflexivity].
    now destruct (yaml_to_dict path).
Qed.

Lemma process_loop_merged (n : nat) (inputs : list (config_input A)) :
  forall (i : nat) (merged : tree A) (sources : list (string * tree A)),
    Forall (fun x => forall d,
                input_dict tcl_to_dict yaml_to_dict ext_lower x = Some d ->
                dict_wf d) inputs ->
    fst (process_loop tcl_to_dict yaml_to_dict ext_lower n i inputs
           (merged, sources))
    = fold_left (fun m t => merge_dicts m t true)
        (flat_map
           (fun x =>
              match input_dict tcl_to_dict yaml_to_dict ext_lower x with
              | Some d => [d]
              | None => []
              end) inputs) merged.
Proof.
  induction inputs as [| x inputs IH]; intros i merged sources Hwf;
    [reflexivity |].
  inversion Hwf as [| ? ? Hx Hrest]; subst.
  cbn [process_loop flat_map]. rewrite process_input_eq.
  destruct (input_dict tcl_to_dict yaml_to_dict ext_lower x) as [d |] eqn:E.
  - rewrite IH by exact Hrest. cbn [app fold_left].
    destruct merged; [| reflexivity].
    rewrite merge_dicts_empty_l; [reflexivity | now apply Hx].
  - now apply IH.
Qed.

Lemma process_loop_app (n : nat) (l1 l2 : list (config_input A)) :
  forall i st,
    process_loop tcl_to_dict yaml_to_dict ext_lower n i (l1 ++ l2) st
    = process_loop tcl_to_dict yaml_to_dict ext_lower n (i + length l1) l2
        (process_loop tcl_to_dict yaml_to_dict ext_lower n i l1 st).
Proof.
  induction l1 as [| x l1 IH]; intros i st; cbn [app process_loop length].
  - now rewrite Nat.add_0_r.
  - rewrite IH. f_equal. lia.
Qed.

(** The dictionaries between the first and the last one all go under the
    same label: each replaces the one before. *)
Lemma process_loop_middle (n : nat) (mids : list (tree A)) :
  forall (i : nat) (tm : tree A) (merged : tree A)
         (sources : list (string * tree A)),
    0 < i -> i + length mids < n - 1 ->
    snd (process_loop tcl_to_dict yaml_to_dict ext_lower n i
           (map InDict (mids ++ [tm])) (merged, sources))
    = dict_set "Appendix info apply" tm sources.
Proof.
  induction mids as [| t mids IH]; intros i tm merged sources Hi Hn.
  - cbn [app map process_loop process_input snd]. unfold source_name_of.
    destruct (Nat.eqb_spec i 0) as [-> | _]; [lia |].
    destruct (Nat.eqb_spec i (n - 1)) as [-> | _]; [simpl in Hn; lia |].
    reflexivity.
  - cbn [app map process_loop]. unfold process_input.
    cbn [length] in Hn. rewrite IH by lia.
    unfold source_name_of.
    destruct (Nat.eqb_spec i 0) as [-> | _]; [lia |].
    destruct (Nat.eqb_spec i (n - 1)) as [-> | _]; [lia |].
    apply dict_set_set.
Qed.

End AggregateMore.

(** X8: the merged dictionary that [process_config_inputs] returns is the
    left fold of [merge_dicts] with overwrite over the dictionaries of the
    inputs that were read, in order: a file with an unsupported extension,
    or whose reader raises, contributes nothing. The dictionaries read have
    distinct keys. *)
Theorem process_config_inputs_merged {A : Type}
    (tcl_to_dict yaml_to_dict : string -> option (tree A))
    (ext_lower : string -> string) (inputs : list (config_input A)) :
  Forall (fun x => forall d,
              input_dict tcl_to_dict yaml_to_dict ext_lower x = Some d ->
              dict_wf d) inputs ->
  fst (process_config_inputs tcl_to_dict yaml_to_dict ext_lower inputs)
  = fold_left (fun m t => merge_dicts m t true)
      (flat_map
         (fun x =>
            match input_dict tcl_to_dict yaml_to_dict ext_lower x with
            | Some d => [d]
            | None => []
            end) inputs) [].
Proof. intros Hwf. now apply process_loop_merged. Qed.

Lemma process_config_inputs_merged_witness :
  fst (process_config_inputs
         (fun path => if String.eqb path "a.tcl"
                      then Some [("k", Leaf "1")] else None)
         (fun _ => None) (fun path => substring 1 4 path)
         [InFile "a.tcl"; InFile "b.txt"; InFile "c.yml";
          InDict [("k", Leaf "2"); ("m", Leaf "3")]])
  = [("k", Leaf "2"); ("m", Leaf "3")].
Proof.
  apply (process_config_inputs_merged
           (fun path => if String.eqb path "a.tcl"
                        then Some [("k", Leaf "1")] else None)
           (fun _ => None) (fun path => substring 1 4 path)
           [InFile "a.tcl"; InFile "b.txt"; InFile "c.yml";
            InDict [("k", Leaf "2"); ("m", Leaf "3")]]).
  repeat constructor; cbn; intros d [= <-]; unfold dict_wf; simpl;
    repeat constructor; simpl; intuition discriminate.
Defined.

(** X9: with three dictionary inputs or more, the dictionary of sources
    that [process_config_inputs] returns has three entries only: the first
    input, the input before the last one, and the last input; the inputs
    in between are replaced, because they share one label. *)
Theorem process_config_inputs_sources {A : Type}
    (tcl_to_dict yaml_to_dict : string -> option (tree A))
    (ext_lower : string -> string)
    (t0 : tree A) (mids : list (tree A)) (tm tl : tree A) :
  snd (process_config_inputs tcl_to_dict yaml_to_dict ext_lower
         (map InDict (t0 :: mids ++ [tm; tl])))
  = [("Basic Appendix info", t0); ("Appendix info apply", tm);
     ("Fixed Appendix info", tl)].
Proof.
  unfold process_config_inputs.
  set (n := length (map InDict (t0 :: mids ++ [tm; tl]))).
  assert (Hn : n = length mids + 3).
  { unfold n. rewrite length_map. cbn [length]. rewrite length_app.
    cbn [length]. lia. }
  clearbody n.
  replace (mids ++ [tm; tl]) with ((mids ++ [tm]) ++ [tl])
    by (now rewrite <- app_assoc).
  cbn [map process_loop]. rewrite map_app, process_loop_app.
  unfold process_input at 1. unfold source_name_of at 1.
  destruct (Nat.eqb_spec 0 (n - 1)) as [E | _]; [lia |].
  cbn [Nat.eqb].
  destruct (process_loop tcl_to_dict yaml_to_dict ext_lower n 1
              (map InDict (mids ++ [tm]))
              (t0, dict_set "Basic Appendix info" t0 []))
    as [merged sources] eqn:Eloop.
  pose proof (process_loop_middle tcl_to_dict yaml_to_dict ext_lower n mids
                1 tm t0 (dict_set "Basic Appendix info" t0 [])) as Hmid.
  rewrite Eloop in Hmid. cbn [snd] in Hmid.
  cbn [map process_loop]. unfold process_input, source_name_of.
  rewrite length_map, length_app. cbn [length snd].
  rewrite Hmid by lia.
  destruct (Nat.eqb_spec (1 + (length mids + 1)) 0) as [E | _]; [lia |].
  destruct (Nat.eqb_spec (1 + (length mids + 1)) (n - 1)) as [_ | E]; [| lia].
  reflexivity.
Qed.

(** ** tcl_to_dict *)

Lemma tcl_value2python_value_total (text : string) :
  exists value, tcl_value2python_value text = Some value.
Proof.
  unfold tcl_value2python_value.
  destruct (negb (nonempty (strip text))); [eauto |].
  destruct (negb (contains lbrace (strip text))
            && negb (contains rbrace (strip text))); [eauto |].
  destruct (startswith lbrace (strip text) && endswith rbrace (strip text)).
  - destruct (parse_list_total (strip text) 1) as (r & j & ->). eauto.
  - destruct (parse_list_total (strip text) 0) as (r & j & ->). eauto.
Qed.

Lemma key_parts_not_nil (key : string) : key_parts key <> [].
Proof.
  unfold key_parts. pose proof (split_on_not_nil comma key) as H.
  destruct (split_on comma key); [congruence | discriminate].
Qed.

Section PathFacts.
Context {A : Type}.
Implicit Types (d : tree A) (p q keys : list string).

Lemma path_cases p :
  forall q, (exists r, q = p ++ r) \/ (exists r, p = q ++ r) \/ incomparable p q.
Proof.
  induction p as [| a p IH]; intros q; [left; now exists q |].
  destruct q as [| b q]; [right; left; now exists (a :: p) |].
  destruct (String.eqb_spec a b) as [-> | Hne].
  - destruct (IH q) as [[r ->] | [[r ->] | [H1 H2]]].
    + left. now exists r.
    + right. left. now exists r.
    + right. right. split; intros r [= E]; [now apply (H1 r) | now apply (H2 r)].
  - right. right. split; intros r [= E]; congruence.
Qed.

(** Below a terminal value there is nothing. *)
Lemma lookup_path_below_leaf keys :
  forall d a r,
    lookup_path d keys = Some (Leaf a) -> r <> [] ->
    lookup_path d (keys ++ r) = None.
Proof.
  induction keys as [| key rest IH]; intros d a r H Hr; [discriminate |].
  destruct rest as [| k2 rest].
  - cbn [lookup_path] in H. cbn [app].
    rewrite lookup_path_cons by exact Hr. now rewrite H.
  - rewrite lookup_path_cons in H by discriminate.
    change ((key :: k2 :: rest) ++ r) with (key :: ((k2 :: rest) ++ r)).
    rewrite lookup_path_cons by discriminate.
    destruct (dict_get key d) as [[b | sub] |]; try discriminate.
    now apply (IH sub a).
Qed.

(** Above an entry there are dictionaries only. *)
Lemma lookup_path_above keys :
  forall d r v a,
    lookup_path d (keys ++ r) = Some v -> r <> [] ->
    lookup_path d keys <> Some (Leaf a).
Proof.
  intros d r v a H Hr Hleaf.
  rewrite (lookup_path_below_leaf keys d a r Hleaf Hr) in H. discriminate.
Qed.

End PathFacts.

Lemma incomparable_sym (p q : list string) :
  incomparable p q -> incomparable q p.
Proof. intros [H1 H2]. now split. Qed.

Lemma fill_array_other (var k : string) :
  k <> var ->
  forall elements result,
    dict_get k (fill_array var result elements) = dict_get k result.
Proof.
  intros Hne. induction elements as [| [key [text |]] rest IH]; intros result;
    cbn [fill_array]; try reflexivity.
  destruct (tcl_value2python_value text) as [value |]; [| reflexivity].
  set (result1 := if dict_has var result then result
                  else dict_set var (Dict []) result).
  assert (H1 : dict_get k result1 = dict_get k result).
  { unfold result1. destruct (dict_has var result); [reflexivity |].
    apply dict_get_set_ne. congruence. }
  destruct (dict_get var result1) as [[a | d] |]; try exact H1.
  destruct (set_nested_dict d (key_parts key) (Leaf value)) as [e | d'];
    [exact H1 |].
  rewrite IH, dict_get_set_ne by congruence. exact H1.
Qed.

(** The elements of an array whose key paths do not start one another all
    reach the dictionary of the array. *)
Lemma fill_array_paths (var : string) :
  forall (elements : list (string * option string)) (result d : tree Value),
    dict_get var result = Some (Dict d)
    \/ (dict_get var result = None /\ d = []) ->
    Forall (fun e => snd e <> None) elements ->
    ForallOrdPairs
      (fun e1 e2 => incomparable (key_parts (fst e1)) (key_parts (fst e2)))
      elements ->
    (forall e p a, In e elements -> lookup_path d p = Some (Leaf a) ->
                   incomparable (key_parts (fst e)) p) ->
    elements <> [] ->
    exists d',
      dict_get var (fill_array var result elements) = Some (Dict d') /\
      (forall key text value,
          In (key, Some text) elements ->
          tcl_value2python_value text = Some value ->
          lookup_path d' (key_parts key) = Some (Leaf value)) /\
      (forall p a, lookup_path d p = Some (Leaf a) ->
                   lookup_path d' p = Some (Leaf a)).
Proof.
  induction elements as [| [key text] rest IH];
    intros result d Hd Hread Hpairs Hinv Hne; [congruence |].
  inversion Hread as [| ? ? Htext Hread']; subst.
  inversion Hpairs as [| ? ? Hfirst Hpairs']; subst.
  destruct text as [text |]; [| now cbn in Htext].
  destruct (tcl_value2python_value_total text) as [value Hvalue].
  cbn [fill_array]. rewrite Hvalue.
  set (result1 := if dict_has var result then result
                  else dict_set var (Dict []) result).
  assert (H1 : dict_get var result1 = Some (Dict d)).
  { unfold result1, dict_has. destruct Hd as [Hd | [Hd ->]]; rewrite Hd;
      [exact Hd | apply dict_get_set_eq]. }
  rewrite H1.
  destruct (set_nested_dict_ok (key_parts key) d (Leaf value))
    as (d1 & Hset & Hget & Hframe).
  { apply key_parts_not_nil. }
  { intros n a Hn Hleaf.
    destruct (Hinv (key, Some text) _ a (or_introl eq_refl) Hleaf) as [_ H2].
    apply (H2 (skipn n (key_parts key))). cbn [fst].
    now rewrite firstn_skipn. }
  rewrite Hset.
  assert (Hold : forall p a, lookup_path d p = Some (Leaf a) ->
                             lookup_path d1 p = Some (Leaf a)).
  { intros p a Hp. rewrite Hframe; [exact Hp | |];
      destruct (Hinv (key, Some text) p a (or_introl eq_refl) Hp) as [H2 H3];
      [exact H3 | exact H2]. }
  destruct rest as [| e' rest'].
  - cbn [fill_array]. exists d1. rewrite dict_get_set_eq.
    split; [reflexivity |]. split; [| exact Hold].
    intros key' text' value' [[= <- <-] | []] Hv. congruence.
  - destruct (IH (dict_set var (Dict d1) result1) d1) as (d' & Hd' & Hall & Hkeep).
    + left. apply dict_get_set_eq.
    + exact Hread'.
    + exact Hpairs'.
    + intros e p a Hin Hp.
      assert (Hek : incomparable (key_parts (fst e)) (key_parts key)).
      { apply incomparable_sym. rewrite List.Forall_forall in Hfirst.
        exact (Hfirst e Hin). }
      destruct (path_cases (key_parts key) p) as [[r ->] | [[r Hr] | Hinc]].
      * destruct r as [| x r]; [now rewrite app_nil_r |].
        rewrite (lookup_path_below_leaf _ _ _ (x :: r) Hget) in Hp
          by discriminate.
        discriminate.
      * destruct r as [| x r]; [rewrite app_nil_r in Hr; now rewrite <- Hr |].
        exfalso. rewrite Hr in Hget.
        now apply (lookup_path_above p d1 (x :: r) _ a Hget).
      * apply (Hinv e p a); [now right |].
        rewrite <- Hp. symmetry. destruct Hinc as [H2 H3].
        apply Hframe; [exact H3 | exact H2].
    + discriminate.
    + exists d'. split; [exact Hd' |]. split.
      * intros key' text' value' [[= <- <-] | Hin] Hv.
        -- apply Hkeep. congruence.
        -- now apply (Hall key' text').
      * intros p a Hp. apply Hkeep. now apply Hold.
Qed.

Lemma read_var_other (k : string) (result : tree Value)
    (item : string * tcl_var) :
  k <> fst item -> dict_get k (read_var result item) = dict_get k result.
Proof.
  destruct item as [var [[text |] | elements]]; cbn [fst read_var]; intros Hne.
  - destruct (tcl_value2python_value text); [| reflexivity].
    apply dict_get_set_ne. congruence.
  - reflexivity.
  - now apply fill_array_other.
Qed.

Lemma fold_read_var_other (k : string) (vars : list (string * tcl_var)) :
  forall result,
    ~ In k (map fst vars) ->
    dict_get k (fold_left read_var vars result) = dict_get k result.
Proof.
  induction vars as [| item vars IH]; intros result Hk; [reflexivity |].
  cbn [fold_left]. rewrite IH by (intros H; apply Hk; now right).
  apply read_var_other. intros ->. apply Hk. now left.
Qed.

(** X10: when the variables have distinct names, every element of an
    array whose texts can be read and whose key paths do not start one
    another is found in the result of [tcl_to_dict] under the name of the
    array followed by the keys of its key path, with the value parsed from
    its text. *)
Theorem tcl_to_dict_array (user_vars : list (string * tcl_var))
    (var : string) (elements : list (string * option string))
    (key text : string) (value : Value) :
  List.NoDup (map fst user_vars) ->
  In (var, TclArray elements) user_vars ->
  Forall (fun e => snd e <> None) elements ->
  ForallOrdPairs
    (fun e1 e2 => incomparable (key_parts (fst e1)) (key_parts (fst e2)))
    elements ->
  In (key, Some text) elements ->
  tcl_value2python_value text = Some value ->
  lookup_path (tcl_to_dict user_vars) (var :: key_parts key)
  = Some (Leaf value).
Proof.
  intros Hnd Hin Hread Hpairs Hkey Hvalue.
  destruct (in_split _ _ Hin) as (pre & post & ->).
  rewrite map_app in Hnd. cbn [map fst] in Hnd.
  pose proof (NoDup_remove_2 _ _ _ Hnd) as Hout.
  unfold tcl_to_dict. rewrite fold_left_app. cbn [fold_left].
  rewrite lookup_path_cons by apply key_parts_not_nil.
  rewrite fold_read_var_other by (intros H; apply Hout, in_or_app; now right).
  cbn [read_var].
  destruct (fill_array_paths var elements (fold_left read_var pre []) [])
    as (d' & -> & Hall & _).
  - right. split; [| reflexivity].
    rewrite fold_read_var_other by (intros H; apply Hout, in_or_app; now left).
    reflexivity.
  - exact Hread.
  - exact Hpairs.
  - intros e p a _ Hp. now rewrite lookup_path_empty in Hp.
  - intros ->. contradiction.
  - now apply (Hall key text).
Qed.

Lemma tcl_to_dict_array_witness :
  lookup_path
    (tcl_to_dict [("var", TclScalar (Some "1"));
                  ("a", TclArray [("b,c", Some "{1 2}"); ("b,d", Some "x")])])
    ("a" :: key_parts "b,c")
  = Some (Leaf (VList [Scalar "1"; Scalar "2"])).
Proof.
  apply (tcl_to_dict_array
           [("var", TclScalar (Some "1"));
            ("a", TclArray [("b,c", Some "{1 2}"); ("b,d", Some "x")])]
           "a" [("b,c", Some "{1 2}"); ("b,d", Some "x")] "b,c" "{1 2}").
  - cbn. repeat constructor; simpl; intuition discriminate.
  - right. left. reflexivity.
  - repeat constructor; discriminate.
  - repeat constructor; cbn; intros r; destruct r as [| ? [| ? ?]]; discriminate.
  - left. reflexivity.
  - reflexivity.
Defined.

(** X11: when the variables have distinct names, every plain variable
    whose text can be read is in the result of [tcl_to_dict] with the value
    parsed from its text. *)
Theorem tcl_to_dict_scalar (user_vars : list (string * tcl_var))
    (var text : string) (value : Value) :
  List.NoDup (map fst user_vars) ->
  In (var, TclScalar (Some text)) user_vars ->
  tcl_value2python_value text = Some value ->
  dict_get var (tcl_to_dict user_vars) = Some (Leaf value).
Proof.
  intros Hnd Hin Hvalue.
  destruct (in_split _ _ Hin) as (pre & post & ->).
  rewrite map_app in Hnd. cbn [map fst] in Hnd.
  pose proof (NoDup_remove_2 _ _ _ Hnd) as Hout.
  unfold tcl_to_dict. rewrite fold_left_app. cbn [fold_left].
  rewrite fold_read_var_other by (intros H; apply Hout, in_or_app; now right).
  cbn [read_var]. rewrite Hvalue. apply dict_get_set_eq.
Qed.

Lemma tcl_to_dict_scalar_witness :
  dict_get "var"
    (tcl_to_dict [("var", TclScalar (Some " a b "));
                  ("a", TclArray [("b,c", Some "{1 2}")])])
  = Some (Leaf (Scalar "a b")).
Proof.
  apply (tcl_to_dict_scalar
           [("var", TclScalar (Some " a b "));
            ("a", TclArray [("b,c", Some "{1 2}")])] "var" " a b ").
  - cbn. repeat constructor; simpl; intuition discriminate.
  - left. reflexivity.
  - reflexivity.
Defined.

Lemma fill_array_app (var : string) (pre suf : list (string * option string)) :
  forall result,
    fill_array var result (pre ++ suf) = fill_array var result pre
    \/ fill_array var result (pre ++ suf)
       = fill_array var (fill_array var result pre) suf.
Proof.
  induction pre as [| [key [text |]] pre IH]; intros result;
    cbn [app fill_array]; auto.
  destruct (tcl_value2python_value text) as [value |]; auto.
  destruct (dict_get var _) as [[a | d] |]; auto.
  destruct (set_nested_dict d (key_parts key) (Leaf value)) as [e | d']; auto.
Qed.

(** X12: an array element whose key path runs through the terminal value
    of an element read before it is not stored, and neither is any element
    that the loop would visit after it: the exception ends the loop over
    the elements of the array. *)
Theorem fill_array_conflict (var : string) (result : tree Value)
    (pre post : list (string * option string)) (key : string)
    (text : option string) (d : tree Value) (n : nat) (a : Value) :
  dict_get var (fill_array var result pre) = Some (Dict d) ->
  0 < n < length (key_parts key) ->
  lookup_path d (firstn n (key_parts key)) = Some (Leaf a) ->
  fill_array var result (pre ++ (key, text) :: post)
  = fill_array var result pre.
Proof.
  intros Hd Hn Hleaf.
  destruct (fill_array_app var pre ((key, text) :: post) result) as [-> | ->];
    [reflexivity |].
  cbn [fill_array]. destruct text as [text |]; [| reflexivity].
  destruct (tcl_value2python_value text) as [value |]; [| reflexivity].
  unfold dict_has. rewrite Hd, Hd.
  destruct (set_nested_dict_blocked (key_parts key) d (Leaf value) n a Hn Hleaf)
    as [e ->].
  reflexivity.
Qed.

Lemma fill_array_conflict_witness :
  fill_array "a" [] [("b", Some "1"); ("b,c", Some "2"); ("d", Some "3")]
  = fill_array "a" [] [("b", Some "1")].
Proof.
  apply (fill_array_conflict "a" [] [("b", Some "1")] [("d", Some "3")]
           "b,c" (Some "2") [("b", Leaf (Scalar "1"))] 1 (Scalar "1")).
  - reflexivity.
  - cbn. lia.
  - reflexivity.
Defined.

(** ** merge_dicts on any store *)

Module StoreMore.
Import Store(loc, obj, store, val, VLeaf, VRef).

(** X13: whatever the store holds, shared or nested objects included,
    a call of [merge_dicts] that returns has changed no object that
    the store held before the call, and the dictionary it returns is an
    object that the store did not hold. *)
Theorem merge_dicts_frame_any {A : Type} (fuel : nat) (h : store A)
    (dict1 dict2 : loc) (overwrite : bool) (h' : store A) (r : loc) :
  Store.merge_dicts fuel h dict1 dict2 overwrite = Some (h', r) ->
  (forall l d, h !! l = Some d -> h' !! l = Some d) /\
  h !! r = None /\ is_Some (h' !! r).
Proof.
  intros H.
  destruct (StoreFacts.merge_dicts_frame fuel h dict1 dict2 overwrite h' r H)
    as (Hsub & Hr & Hin).
  split; [| now split].
  intros l d Hl. now apply (lookup_weaken h h').
Qed.

Lemma merge_dicts_frame_any_witness :
  let h : store Z :=
    <[0 := [("a", VRef 1); ("b", VRef 1)]]> (<[1 := [("x", VLeaf 1%Z)]]> ∅) in
  exists h' r,
    Store.merge_dicts 2 h 0 0 true = Some (h', r) /\
    (forall l d, h !! l = Some d -> h' !! l = Some d) /\
    h !! r = None /\ is_Some (h' !! r).
Proof.
  intros h.
  destruct (Store.merge_dicts 2 h 0 0 true) as [[h' r] |] eqn:E;
    [| vm_compute in E; discriminate E].
  exists h', r. split; [reflexivity |].
  exact (merge_dicts_frame_any 2 h 0 0 true h' r E).
Defined.

End StoreMore.

(** ** More on tcl_value2python_value *)

(** The loop of [parse_list] reads a word, a run of characters that are
    neither a brace nor a space, into [current]. *)
Lemma scan_word (w : string) :
  forall (pre post : string) (fuel : nat) (result : list Value)
         (current : list ascii) (out : list Value * nat),
    contains lbrace w = false -> contains rbrace w = false ->
    contains space w = false ->
    parse_list_loop fuel (pre ++ w ++ post) (String.length pre) result current
    = Some out ->
    exists fuel',
      parse_list_loop fuel' (pre ++ w ++ post)
        (String.length pre + String.length w) result
        (current ++ list_ascii_of_string w) = Some out.
Proof.
  induction w as [| c w IH]; intros pre post fuel result current out Hl Hr Hs H.
  - exists fuel. cbn [String.length list_ascii_of_string].
    now rewrite Nat.add_0_r, app_nil_r.
  - cbn [contains] in Hl, Hr, Hs.
    apply orb_false_iff in Hl as [Hcl Hl]. apply orb_false_iff in Hr as [Hcr Hr].
    apply orb_false_iff in Hs as [Hcs Hs].
    destruct fuel as [| fuel]; [discriminate H |].
    rewrite (parse_step_char _ pre _ 0 _ _ _ c) in H;
      [| lia | reflexivity | exact Hcl | exact Hcr | now rewrite Hcs].
    assert (Htext : (pre ++ String c w ++ post)%string
                    = ((pre ++ String c "") ++ w ++ post)%string)
      by now rewrite append_assoc_str.
    rewrite Htext in H |- *.
    replace (String.length pre + 1) with (String.length (pre ++ String c ""))
      in H by now rewrite length_append.
    destruct (IH _ _ _ _ _ _ Hl Hr Hs H) as [fuel' H'].
    exists fuel'. rewrite length_append in H'. cbn [String.length] in *.
    replace (String.length pre + S (String.length w))
      with (String.length pre + 1 + String.length w) by lia.
    cbn [list_ascii_of_string]. rewrite <- app_assoc in H'. exact H'.
Qed.

Lemma parse_at_rbrace (fuel : nat) (pre post : string) (result : list Value)
    (current : list ascii) (out : list Value * nat) :
  parse_list_loop fuel (pre ++ String rbrace post) (String.length pre)
    result current = Some out ->
  out = (flush result current, String.length pre + 1).
Proof.
  destruct fuel as [| fuel]; [discriminate |]. cbn [parse_list_loop].
  rewrite get_append_here, length_append. cbn [String.length].
  destruct (Nat.ltb_spec (String.length pre)
              (String.length pre + S (String.length post))) as [_ | Hge];
    [| lia].
  cbn. congruence.
Qed.

Lemma parse_words (ws : list string) :
  forall (pre : string) (fuel : nat) (result : list Value)
         (out : list Value * nat),
    Forall (fun w => nonempty w = true /\ contains lbrace w = false /\
                     contains rbrace w = false /\ contains space w = false /\
                     strip w = w) ws ->
    parse_list_loop fuel (pre ++ join " " ws ++ "}") (String.length pre)
      result [] = Some out ->
    fst out = result ++ map Scalar ws.
Proof.
  induction ws as [| w ws IH]; intros pre fuel result out Hall H.
  - apply parse_at_rbrace in H. subst out. cbn. now rewrite app_nil_r.
  - inversion Hall as [| ? ? (Hne & Hl & Hr & Hs & Hstrip) Hrest]; subst.
    assert (Hflush : flush result ([] ++ list_ascii_of_string w)
                     = result ++ [Scalar w]).
    { cbn [app]. unfold flush, join_chars.
      destruct w as [| c w]; [discriminate Hne |].
      cbn [list_ascii_of_string].
      change (c :: list_ascii_of_string w)
        with (list_ascii_of_string (String c w)).
      now rewrite string_of_list_ascii_of_string, Hstrip. }
    destruct ws as [| w2 ws].
    + cbn [join String.concat] in H.
      destruct (scan_word w pre "}" _ _ _ _ Hl Hr Hs H) as [fuel' H'].
      rewrite <- append_assoc_str in H'.
      rewrite <- length_append in H'.
      apply parse_at_rbrace in H'. subst out. cbn [fst map]. exact Hflush.
    + rewrite join_cons in H by discriminate.
      rewrite !append_assoc_str in H.
      destruct (scan_word w pre _ _ _ _ _ Hl Hr Hs H) as [fuel' H'].
      destruct fuel' as [| fuel']; [discriminate H' |].
      rewrite <- append_assoc_str, <- length_append in H'.
      rewrite (parse_step_space _ (pre ++ w) _ 0) in H';
        [| lia | reflexivity |].
      2: { cbn [app]. destruct w; [discriminate Hne | discriminate]. }
      assert (Hcur : Scalar (strip (join_chars ([] ++ list_ascii_of_string w)))
                     = Scalar w).
      { cbn [app]. unfold join_chars.
        now rewrite string_of_list_ascii_of_string, Hstrip. }
      rewrite Hcur in H'.
      change (" " ++ join " " (w2 :: ws) ++ "}")%string
        with (String space "" ++ join " " (w2 :: ws) ++ "}")%string in H'.
      rewrite <- append_assoc_str in H'.
      replace (String.length (pre ++ w) + 1)
        with (String.length ((pre ++ w) ++ String space "")) in H'
        by now rewrite (length_append (pre ++ w)).
      apply IH in H'; [| exact Hrest].
      rewrite H'. cbn [map]. now rewrite <- app_assoc.
Qed.

Lemma endswith_last (c : ascii) (s : string) :
  endswith c (s ++ String c "") = true.
Proof.
  induction s as [| a s IH]; [cbn; apply Ascii.eqb_refl |].
  change (endswith c (String a (s ++ String c "")) = true).
  cbn [endswith]. destruct (s ++ String c "")%string eqn:E; [| exact IH].
  destruct s; discriminate E.
Qed.

(** X14: a list of words in one pair of braces, the words separated by
    one space, is parsed to the list of the words; a word is not empty,
    holds no brace and no space, and has no whitespace at its ends. The
    list of no word is the empty list. *)
Theorem parse_braced_words (ws : list string) :
  Forall (fun w => nonempty w = true /\ contains lbrace w = false /\
                   contains rbrace w = false /\ contains space w = false /\
                   strip w = w) ws ->
  tcl_value2python_value ("{" ++ join " " ws ++ "}")
  = Some (VList (map Scalar ws)).
Proof.
  intros Hall.
  set (text := ("{" ++ join " " ws ++ "}")%string).
  assert (Hstrip : strip text = text).
  { unfold strip, text.
    change (lstrip ("{" ++ join " " ws ++ "}"))
      with (("{" ++ join " " ws) ++ String rbrace "")%string.
    now apply rstrip_ends_nonspace. }
  assert (Hend : endswith rbrace text = true).
  { unfold text.
    change ("{" ++ join " " ws ++ "}")%string
      with (("{" ++ join " " ws) ++ String rbrace "")%string.
    apply endswith_last. }
  unfold tcl_value2python_value. rewrite Hstrip, Hend.
  change (nonempty text) with true.
  change (contains lbrace text) with true.
  change (startswith lbrace text) with true.
  cbn [negb andb].
  destruct (parse_list_total text 1) as (r & j & Hp). rewrite Hp.
  unfold parse_list in Hp.
  apply (parse_words ws "{" _ [] (r, j) Hall) in Hp.
  cbn [fst app] in Hp. now rewrite Hp.
Qed.

Lemma parse_braced_words_witness :
  tcl_value2python_value "{alpha 22 c.d}"
  = Some (VList [Scalar "alpha"; Scalar "22"; Scalar "c.d"]).
Proof.
  apply (parse_braced_words ["alpha"; "22"; "c.d"]).
  repeat constructor.
Defined.

Lemma lstrip_head (s : string) :
  lstrip s = "" \/ exists a t, lstrip s = String a t /\ isspace a = false.
Proof.
  induction s as [| a s IH]; [now left |].
  cbn [lstrip]. destruct (isspace a) eqn:E; [exact IH |].
  right. now exists a, s.
Qed.

Lemma rstrip_idem (s : string) : rstrip (rstrip s) = rstrip s.
Proof.
  induction s as [| a s IH]; [reflexivity |].
  cbn [rstrip].
  destruct (isspace a && negb (nonempty (rstrip s))) eqn:E; [reflexivity |].
  cbn [rstrip]. now rewrite IH, E.
Qed.

Lemma strip_idem (s : string) : strip (strip s) = strip s.
Proof.
  unfold strip. destruct (lstrip_head s) as [-> | (a & t & -> & Ha)];
    [reflexivity |].
  cbn [rstrip]. rewrite Ha. cbn [andb lstrip]. rewrite Ha.
  change (rstrip (String a (rstrip t)))
    with (if isspace a && negb (nonempty (rstrip (rstrip t)))
          then "" else String a (rstrip (rstrip t))).
  now rewrite Ha, rstrip_idem.
Qed.

Lemma lstrip_empty_iff (s : string) :
  lstrip s = "" <-> forallb isspace (list_ascii_of_string s) = true.
Proof.
  induction s as [| a s IH]; [now split |].
  cbn [lstrip list_ascii_of_string forallb].
  destruct (isspace a); [exact IH |]. split; discriminate.
Qed.

Lemma strip_empty_iff (s : string) :
  strip s = "" <-> forallb isspace (list_ascii_of_string s) = true.
Proof.
  rewrite <- lstrip_empty_iff. unfold strip.
  destruct (lstrip_head s) as [-> | (a & t & -> & Ha)]; [now split |].
  cbn [rstrip]. rewrite Ha. split; discriminate.
Qed.

(** X15: whitespace around a text never changes what it is parsed to, and
    the texts parsed to the empty scalar are the texts that hold
    whitespace only, the empty text among them. *)
Theorem parse_ignores_outer_whitespace (s : string) :
  tcl_value2python_value (strip s) = tcl_value2python_value s /\
  (tcl_value2python_value s = Some (Scalar "")
   <-> forallb isspace (list_ascii_of_string s) = true).
Proof.
  split.
  - unfold tcl_value2python_value. now rewrite strip_idem.
  - rewrite <- strip_empty_iff. split.
    + intros H. apply parse_scalar_inv in H as [H _]. now symmetry.
    + intros H. unfold tcl_value2python_value. now rewrite H.
Qed.

(** ** More on python_value2tcl_value *)

Lemma render_braces_loop_form (value : string) :
  forall parts current brace_level,
    exists body,
      render_braces_loop value parts current brace_level
      = ("[list " ++ body ++ "]")%string.
Proof.
  induction value as [| char rest IH]; intros parts current brace_level;
    cbn [render_braces_loop].
  - eauto.
  - destruct (Ascii.eqb char lbrace).
    + destruct ((brace_level =? 0)%Z && nonempty current); apply IH.
    + destruct (Ascii.eqb char rbrace); [| apply IH].
      destruct (brace_level - 1 =? 0)%Z; apply IH.
Qed.

(** X16: no value is rendered as the empty text, so that every [set]
    statement has a value; a scalar that holds a brace or a space, and
    every list that is not empty, is rendered as a list constructor. *)
Theorem render_never_empty (v : Value) :
  nonempty (python_value2tcl_value v) = true /\
  (match v with
   | Scalar s => contains lbrace s || contains rbrace s || contains space s
   | VList items => match items with [] => false | _ => true end
   end = true ->
   exists body, python_value2tcl_value v = ("[list " ++ body ++ "]")%string).
Proof.
  destruct v as [s | items]; cbn [python_value2tcl_value].
  - destruct s as [| c s]; [split; [reflexivity | discriminate] |].
    cbn [nonempty negb].
    destruct (contains lbrace (String c s) || contains rbrace (String c s))
      eqn:Eb.
    + destruct (render_braces_loop_form (String c s) [] "" 0%Z) as [body ->].
      split; [reflexivity | eauto].
    + cbn [orb]. destruct (contains space (String c s)).
      * split; [reflexivity | eauto].
      * split; [reflexivity | discriminate].
  - destruct items as [| x xs]; [split; [reflexivity | discriminate] |].
    split; [reflexivity | eauto].
Qed.

Lemma render_never_empty_witness :
  exists body,
    python_value2tcl_value (Scalar "a {b} c") = ("[list " ++ body ++ "]")%string.
Proof.
  exact (proj2 (render_never_empty (Scalar "a {b} c")) eq_refl).
Defined.

(** ** What parse_list reads *)

(** The loop of [parse_list] ends behind every character it has read. *)
Lemma parse_list_loop_advances (fuel : nat) :
  forall (s : string) (i : nat) (result : list Value) (current : list ascii)
         (out : list Value) (j : nat),
    parse_list_loop fuel s i result current = Some (out, j) ->
    i <= j /\ (i < String.length s -> i < j).
Proof.
  induction fuel as [| fuel IH]; intros s i result current out j H;
    [discriminate |].
  cbn [parse_list_loop] in H.
  destruct (Nat.ltb_spec i (String.length s)) as [Hi | Hi].
  - destruct (String.get i s) as [c |]; [| discriminate].
    destruct (Ascii.eqb c lbrace).
    + destruct (parse_list_loop fuel s (i + 1) [] []) as [[nested new_i] |]
        eqn:E; [| discriminate].
      apply IH in E as [E _]. apply IH in H as [H _]. lia.
    + destruct (Ascii.eqb c rbrace).
      * injection H as _ <-. lia.
      * destruct (Ascii.eqb c space
                  && match current with [] => false | _ => true end);
          apply IH in H as [H _]; lia.
  - injection H as _ <-. lia.
Qed.

(** The loop of [parse_list] started at an index does not depend on the
    characters before that index. *)
Lemma parse_list_loop_suffix (fuel : nat) :
  forall (s s' : string) (i : nat) (result : list Value)
         (current : list ascii),
    String.length s = String.length s' ->
    (forall x, i <= x -> String.get x s = String.get x s') ->
    parse_list_loop fuel s i result current
    = parse_list_loop fuel s' i result current.
Proof.
  induction fuel as [| fuel IH]; intros s s' i result current Hlen Hagree;
    [reflexivity |].
  cbn [parse_list_loop]. rewrite <- Hlen, <- (Hagree i) by lia.
  destruct (i <? String.length s)%nat; [| reflexivity].
  destruct (String.get i s) as [c |]; [| reflexivity].
  destruct (Ascii.eqb c lbrace).
  - rewrite <- (IH s s' (i + 1)) by (auto; intros; apply Hagree; lia).
    destruct (parse_list_loop fuel s (i + 1) [] []) as [[nested new_i] |]
      eqn:E; [| reflexivity].
    apply parse_list_loop_advances in E as [E _].
    apply IH; [exact Hlen |]. intros; apply Hagree; lia.
  - destruct (Ascii.eqb c rbrace); [reflexivity |].
    destruct (Ascii.eqb c space
              && match current with [] => false | _ => true end);
      apply IH; auto; intros; apply Hagree; lia.
Qed.

(** A run of the loop of [parse_list] that ends at or before an index
    does not depend on the characters from that index on. *)
Lemma parse_list_loop_prefix (fuel : nat) :
  forall (s s' : string) (i m : nat) (result : list Value)
         (current : list ascii) (out : list Value) (j : nat),
    String.length s = String.length s' ->
    (forall x, x < m -> String.get x s = String.get x s') ->
    parse_list_loop fuel s i result current = Some (out, j) -> j <= m ->
    parse_list_loop fuel s' i result current = Some (out, j).
Proof.
  induction fuel as [| fuel IH];
    intros s s' i m result current out j Hlen Hagree H Hj; [discriminate |].
  pose proof (parse_list_loop_advances _ _ _ _ _ _ _ H) as [_ Hadv].
  cbn [parse_list_loop] in H |- *. rewrite <- Hlen.
  destruct (Nat.ltb_spec i (String.length s)) as [Hi | Hi]; [| exact H].
  rewrite <- (Hagree i) by (specialize (Hadv Hi); lia).
  destruct (String.get i s) as [c |]; [| discriminate].
  destruct (Ascii.eqb c lbrace).
  - destruct (parse_list_loop fuel s (i + 1) [] []) as [[nested new_i] |]
      eqn:E; [| discriminate].
    pose proof (parse_list_loop_advances _ _ _ _ _ _ _ H) as [Hn _].
    rewrite (IH s s' (i + 1) m [] [] nested new_i Hlen Hagree E) by lia.
    now apply (IH s s' _ m).
  - destruct (Ascii.eqb c rbrace); [exact H |].
    destruct (Ascii.eqb c space
              && match current with [] => false | _ => true end);
      now apply (IH s s' _ m).
Qed.

(** X17: the character that follows the closing brace of a nested list
    is never read: when the nested call started behind an opening brace
    returns the index [k], two texts that differ at index [k] only are
    parsed alike. *)
Theorem char_after_nested_list_skipped (fuel : nat) (s s' : string)
    (i k : nat) (result nested : list Value) (current : list ascii) :
  String.get i s = Some lbrace ->
  String.length s = String.length s' ->
  (forall x, x <> k -> String.get x s = String.get x s') ->
  parse_list_loop fuel s (i + 1) [] [] = Some (nested, k) ->
  parse_list_loop (S fuel) s i result current
  = parse_list_loop (S fuel) s' i result current.
Proof.
  intros Hget Hlen Hagree Hnested.
  pose proof (parse_list_loop_advances _ _ _ _ _ _ _ Hnested) as [Hk _].
  cbn [parse_list_loop]. rewrite <- Hlen, <- (Hagree i) by lia.
  rewrite Hget.
  destruct (i <? String.length s)%nat; [| reflexivity].
  cbn [Ascii.eqb Bool.eqb lbrace]. cbn.
  rewrite Hnested.
  rewrite (parse_list_loop_prefix fuel s s' (i + 1) k [] [] nested k Hlen)
    by (auto; intros; apply Hagree; lia).
  apply parse_list_loop_suffix; [exact Hlen |].
  intros x Hx. apply Hagree. lia.
Qed.

Lemma char_after_nested_list_skipped_witness :
  parse_list_loop 7 "{a}xb" 0 [] [] = parse_list_loop 7 "{a}yb" 0 [] []
  /\ parse_list_loop 7 "{a}xb" 0 [] [] = Some ([VList [Scalar "a"]; Scalar "b"], 5).
Proof.
  split; [| reflexivity].
  apply (char_after_nested_list_skipped 6 "{a}xb" "{a}yb" 0 3 [] [Scalar "a"] []).
  - reflexivity.
  - reflexivity.
  - intros x Hx.
    destruct x as [| [| [| [| [| x]]]]]; try reflexivity. congruence.
  - reflexivity.
Defined.

(** ** Last writer and colliding names *)

Lemma fold_merge_absent {A : Type} (key : string) (post : list (tree A)) :
  forall base,
    Forall (fun t => dict_wf t /\ dict_get key t = None) post ->
    dict_get key (fold_left (fun m t => merge_dicts m t true) post base)
    = dict_get key base.
Proof.
  induction post as [| t post IH]; intros base Hall; [reflexivity |].
  inversion Hall as [| ? ? [Hwf Hnone] Hrest]; subst.
  cbn [fold_left]. rewrite IH by exact Hrest.
  rewrite merge_dicts_lookup by exact Hwf. rewrite Hnone.
  now destruct (dict_get key base) as [[a | sub] |].
Qed.

(** X18: when the last dictionary input that has a key holds a terminal
    value at it, the merged dictionary of [process_config_inputs] holds
    that value at the key, whatever the inputs before it hold there. *)
Theorem process_config_inputs_last_wins {A : Type}
    (tcl_to_dict yaml_to_dict : string -> option (tree A))
    (ext_lower : string -> string)
    (pre post : list (tree A)) (t : tree A) (key : string) (v : A) :
  Forall dict_wf pre -> dict_wf t ->
  Forall (fun t' => dict_wf t' /\ dict_get key t' = None) post ->
  dict_get key t = Some (Leaf v) ->
  dict_get key
    (fst (process_config_inputs tcl_to_dict yaml_to_dict ext_lower
            (map InDict (pre ++ t :: post))))
  = Some (Leaf v).
Proof.
  intros Hpre Ht Hpost Hkey.
  unfold process_config_inputs.
  assert (Hwf : Forall dict_wf (pre ++ t :: post)).
  { apply Forall_app. split; [exact Hpre |]. constructor; [exact Ht |].
    eapply List.Forall_impl; [| exact Hpost]. now intros t' [H _]. }
  pose proof (process_loop_dicts tcl_to_dict yaml_to_dict ext_lower
                (length (map InDict (pre ++ t :: post))) (pre ++ t :: post)
                0 [] [] Hwf) as Hloop.
  apply (f_equal fst) in Hloop. cbn [fst] in Hloop.
  etransitivity; [apply (f_equal (dict_get key)); exact Hloop |].
  rewrite fold_left_app. cbn [fold_left].
  rewrite fold_merge_absent by exact Hpost.
  rewrite merge_dicts_lookup by exact Ht. rewrite Hkey.
  now destruct (dict_get key
                  (fold_left (fun m t => merge_dicts m t true) pre []))
    as [[a | sub] |].
Qed.

Lemma process_config_inputs_last_wins_witness :
  dict_get "k"
    (fst (process_config_inputs (fun _ => None) (fun _ => None) (fun p => p)
            (map InDict
               [[("k", Dict [("x", Leaf "1")])]; [("k", Leaf "2")];
                [("m", Leaf "3")]])))
  = Some (Leaf "2").
Proof.
  apply (process_config_inputs_last_wins
           (fun _ => None) (fun _ => None) (fun p => p)
           [[("k", Dict [("x", Leaf "1")])]] [[("m", Leaf "3")]]
           [("k", Leaf "2")] "k" "2").
  - repeat constructor; simpl; intuition discriminate.
  - unfold dict_wf. simpl. repeat constructor; simpl; intuition discriminate.
  - repeat constructor; simpl; intuition discriminate.
  - reflexivity.
Defined.

Lemma sorted_sorted (lines : list string) : sorted (sorted lines) = sorted lines.
Proof.
  apply sorted_unique; try apply sorted_Sorted.
  symmetry. apply sorted_Permutation.
Qed.

(** X19: [process_dict] cannot tell some dictionaries apart. A key that
    holds a comma is written like a nested key: the key made of [k0], a
    comma and [k1] gives the statement of the key [k1] inside the
    dictionary at [k0] ([k0] is not empty). And a key
    of the outer dictionary that is the empty text leaves no trace: the
    entries of the dictionary it holds are written like entries of the
    outer dictionary. *)
Theorem process_dict_name_collisions (k0 k1 : string) (v : Value)
    (sub : tree Value) :
  nonempty k0 = true ->
  process_dict [((k0 ++ "," ++ k1)%string, Leaf v)] ""
  = process_dict [(k0, Dict [(k1, Leaf v)])] ""
  /\ process_dict [("", Dict sub)] "" = process_dict sub "".
Proof.
  intros Hne. split.
  - assert (Hname : var_name_of "" (k0 ++ "," ++ k1) = var_name_of k0 k1).
    { unfold var_name_of, child_name. now rewrite Hne. }
    unfold process_dict. cbn [flat_map app fst snd process_item].
    change (child_name "" k0) with k0.
    rewrite Hname. reflexivity.
  - rewrite (process_dict_eq [("", Dict sub)]). cbn [flat_map].
    rewrite app_nil_r. change (child_name "" "") with "".
    unfold process_dict. apply sorted_sorted.
Qed.

Lemma process_dict_name_collisions_witness :
  process_dict [("a,b", Leaf (Scalar "1"))] ""
  = process_dict [("a", Dict [("b", Leaf (Scalar "1"))])] ""
  /\ process_dict [("", Dict [("x", Leaf (Scalar "1"))])] ""
     = process_dict [("x", Leaf (Scalar "1"))] "".
Proof.
  exact (process_dict_name_collisions "a" "b" (Scalar "1")
           [("x", Leaf (Scalar "1"))] eq_refl).
Defined.

(** ** The bound on the nested calls of parse_list *)

Example limited_doc_1 :
  tcl_value2python_value_limited 3 "{a {b c"
  = Some (inr (VList [VList [Scalar "a"; VList [Scalar "b"; Scalar "c"]]]))
  /\ calls_needed "{a {b c" = 3.
Proof. split; reflexivity. Qed.

Example limited_doc_2 :
  tcl_value2python_value_limited 2 "{a {b c" = Some (inl RecursionError).
Proof. reflexivity. Qed.

Example limited_doc_3 :
  tcl_value2python_value_limited 1 "{a} {b} {c}"
  = Some (inr (VList [Scalar "a"]))
  /\ tcl_value2python_value_limited 1 "x {a} {b} {c}" = Some (inl RecursionError)
  /\ calls_needed "x {a} {b} {c}" = 2.
Proof. repeat split. Qed.

(** The control flow of the loop ends whenever it has more fuel than
    characters left to read. *)
Lemma call_depth_loop_total (fuel : nat) :
  forall (s : string) (i : nat),
    String.length s - i < fuel ->
    exists d j, call_depth_loop fuel s i = Some (d, j) /\ i <= j.
Proof.
  induction fuel as [| fuel IH]; intros s i Hf; [lia |].
  cbn [call_depth_loop].
  destruct (Nat.ltb_spec i (String.length s)) as [Hi | Hi].
  - destruct (get_in_range s i Hi) as [c ->].
    destruct (Ascii.eqb c lbrace).
    + destruct (IH s (i + 1)) as (d1 & new_i & -> & Hn); [lia |].
      destruct (IH s (new_i + 1)) as (d2 & j & -> & Hj); [lia |].
      eexists _, _. split; [reflexivity | lia].
    + destruct (Ascii.eqb c rbrace).
      * eexists _, _. split; [reflexivity | lia].
      * destruct (IH s (i + 1)) as (d & j & -> & Hj); [lia |].
        exists d, j. split; [reflexivity | lia].
  - eexists _, _. split; [reflexivity | lia].
Qed.

(** The loop under the bound returns what the loop without the bound
    returns when the calls that the run stacks fit the bound, and raises
    [RecursionError] when they do not. *)
Lemma parse_list_loop_limited_spec (fuel : nat) :
  forall (depth : nat) (s : string) (i : nat) (result : list Value)
         (current : list ascii) (d j : nat),
    call_depth_loop fuel s i = Some (d, j) ->
    exists r,
      parse_list_loop fuel s i result current = Some (r, j) /\
      parse_list_loop_limited fuel depth s i result current
      = if (d <=? depth)%nat then Some (inr (r, j))
        else Some (inl RecursionError).
Proof.
  induction fuel as [| fuel IH]; intros depth s i result current d j H;
    [discriminate |].
  cbn [call_depth_loop parse_list_loop parse_list_loop_limited] in H |- *.
  destruct (i <? String.length s)%nat.
  2:{ injection H as <- <-. eexists. split; reflexivity. }
  destruct (String.get i s) as [c |]; [| discriminate].
  destruct (Ascii.eqb c lbrace).
  - destruct (call_depth_loop fuel s (i + 1)) as [[d1 new_i] |] eqn:E1;
      [| discriminate].
    destruct (call_depth_loop fuel s (new_i + 1)) as [[d2 j'] |] eqn:E2;
      [| discriminate].
    injection H as <- <-.
    destruct (IH depth s (i + 1) [] [] d1 new_i E1) as (r1 & Hu1 & _).
    rewrite Hu1.
    destruct (IH depth s (new_i + 1) (flush result current ++ [VList r1]) []
                d2 j' E2) as (r & Hu & Hl).
    rewrite Hu. exists r. split; [reflexivity |].
    destruct depth as [| depth'].
    + destruct (Nat.leb_spec (Nat.max (S d1) d2) 0); [lia | reflexivity].
    + destruct (IH depth' s (i + 1) [] [] d1 new_i E1) as (r1' & Hu1' & Hl1).
      rewrite Hu1 in Hu1'. injection Hu1' as <-. rewrite Hl1.
      destruct (Nat.leb_spec d1 depth') as [H1 | H1].
      * rewrite Hl.
        destruct (Nat.leb_spec d2 (S depth')) as [H2 | H2];
          destruct (Nat.leb_spec (Nat.max (S d1) d2) (S depth'));
          solve [reflexivity | lia].
      * destruct (Nat.leb_spec (Nat.max (S d1) d2) (S depth'));
          [lia | reflexivity].
  - destruct (Ascii.eqb c rbrace).
    + injection H as <- <-. eexists. split; reflexivity.
    + destruct (Ascii.eqb c space
                && match current with [] => false | _ => true end);
        now apply IH.
Qed.

Lemma lbraces_S (n : nat) : lbraces (S n) = String lbrace (lbraces n).
Proof. reflexivity. Qed.

Lemma length_lbraces (n : nat) : String.length (lbraces n) = n.
Proof.
  induction n as [| n IH]; [reflexivity |].
  rewrite lbraces_S. cbn [String.length]. now rewrite IH.
Qed.

Lemma get_lbraces (n i : nat) :
  i < n -> String.get i (lbraces n) = Some lbrace.
Proof.
  revert i. induction n as [| n IH]; intros i Hi; [lia |].
  rewrite lbraces_S. destruct i as [| i]; [reflexivity |].
  cbn [String.get]. apply IH. lia.
Qed.

Lemma rstrip_lbraces (n : nat) : rstrip (lbraces n) = lbraces n.
Proof.
  induction n as [| n IH]; [reflexivity |].
  rewrite lbraces_S. cbn [rstrip]. rewrite IH. reflexivity.
Qed.

Lemma strip_lbraces (n : nat) : strip (lbraces n) = lbraces n.
Proof.
  unfold strip. destruct n as [| n]; [reflexivity |].
  rewrite lbraces_S. change (lstrip (String lbrace (lbraces n)))
    with (String lbrace (lbraces n)).
  rewrite <- lbraces_S. apply rstrip_lbraces.
Qed.

Lemma endswith_lbraces (n : nat) : endswith rbrace (lbraces n) = false.
Proof.
  induction n as [| n IH]; [reflexivity |].
  rewrite lbraces_S. cbn [endswith].
  destruct (lbraces n); [reflexivity | exact IH].
Qed.

(** Opening braces one behind the other raise as soon as they outnumber
    the calls that are allowed. *)
Lemma parse_list_loop_limited_lbraces (depth : nat) :
  forall (fuel n i : nat) (result : list Value) (current : list ascii),
    i + depth < n -> depth < fuel ->
    parse_list_loop_limited fuel depth (lbraces n) i result current
    = Some (inl RecursionError).
Proof.
  induction depth as [| depth IH]; intros fuel n i result current Hi Hf;
    (destruct fuel as [| fuel]; [lia |]);
    cbn [parse_list_loop_limited]; rewrite length_lbraces;
    (destruct (Nat.ltb_spec i n); [| lia]);
    rewrite get_lbraces by lia;
    change (Ascii.eqb lbrace lbrace) with true; cbv iota.
  - reflexivity.
  - rewrite IH by lia. reflexivity.
Qed.

Lemma tcl_value2python_value_limited_lbraces (limit n : nat) :
  0 < n -> limit <= n ->
  tcl_value2python_value_limited limit (lbraces n)
  = Some (inl RecursionError).
Proof.
  intros Hn Hl. unfold tcl_value2python_value_limited. cbv zeta.
  rewrite strip_lbraces, endswith_lbraces, andb_false_r.
  destruct n as [| n]; [lia |].
  assert (Hne : nonempty (lbraces (S n)) = true) by reflexivity.
  assert (Hc : contains lbrace (lbraces (S n)) = true) by reflexivity.
  rewrite Hne, Hc. cbn [negb andb].
  unfold parse_list_limited. destruct limit as [| depth]; [reflexivity |].
  rewrite parse_list_loop_limited_lbraces; [reflexivity | lia |].
  rewrite length_lbraces. lia.
Qed.

(** A run of the loop of [parse_list] that returns before the end of
    the text returns behind a closing brace. *)
Lemma parse_list_loop_early_return (fuel : nat) :
  forall (s : string) (i : nat) (result : list Value)
         (current : list ascii) (out : list Value) (j : nat),
    parse_list_loop fuel s i result current = Some (out, j) ->
    j < String.length s ->
    exists k, j = k + 1 /\ String.get k s = Some rbrace.
Proof.
  induction fuel as [| fuel IH]; intros s i result current out j H Hj;
    [discriminate |].
  cbn [parse_list_loop] in H.
  destruct (Nat.ltb_spec i (String.length s)) as [Hi | Hi].
  2:{ injection H as _ <-. lia. }
  destruct (String.get i s) as [c |] eqn:Hget; [| discriminate].
  destruct (Ascii.eqb c lbrace).
  - destruct (parse_list_loop fuel s (i + 1) [] []) as [[nested new_i] |];
      [| discriminate].
    now apply IH in H.
  - destruct (Ascii.eqb c rbrace) eqn:Hc.
    + injection H as _ <-. apply Ascii.eqb_eq in Hc. subst c. now exists i.
    + destruct (Ascii.eqb c space
                && match current with [] => false | _ => true end);
        now apply IH in H.
Qed.

(** C7: the parser returns a value, the one of the parse without the
    bound, for every text whose parse keeps no more calls of [parse_list]
    open at once than the interpreter allows, texts with unmatched or
    malformed braces included, and raises [RecursionError] for every
    other text. A closing brace ends the call that reads it, whatever
    came before; the outermost call returns before the end of the text
    at a closing brace only, and the text behind the index that it
    returns is not read. *)
Theorem parse_value_within_recursion_limit (limit : nat) (value : string) :
  (exists v,
     tcl_value2python_value value = Some v /\
     tcl_value2python_value_limited limit value
     = if (calls_needed value <=? limit)%nat then Some (inr v)
       else Some (inl RecursionError))
  /\ (forall (fuel : nat) (s : string) (i : nat) (result : list Value)
             (current : list ascii),
        String.get i s = Some rbrace ->
        parse_list_loop_limited (S fuel) limit s i result current
        = Some (inr (flush result current, i + 1)))
  /\ (forall (s s' : string) (start : nat) (r : list Value) (j : nat),
        String.length s = String.length s' ->
        (forall x, x < j -> String.get x s = String.get x s') ->
        parse_list s start = Some (r, j) ->
        parse_list s' start = Some (r, j))
  /\ (forall (s : string) (start : nat) (r : list Value) (j : nat),
        parse_list s start = Some (r, j) ->
        j < String.length s ->
        exists k, j = k + 1 /\ String.get k s = Some rbrace).
Proof.
  split; [| split; [| split]].
  4:{ intros s start r j H Hj. unfold parse_list in H.
      exact (parse_list_loop_early_return _ _ _ _ _ _ _ H Hj). }
  - unfold tcl_value2python_value, tcl_value2python_value_limited,
      calls_needed. cbv zeta.
    destruct (negb (nonempty (strip value))).
    { exists (Scalar ""). split; reflexivity. }
    destruct (negb (contains lbrace (strip value))
              && negb (contains rbrace (strip value))).
    { exists (Scalar (strip value)). split; reflexivity. }
    set (start := if startswith lbrace (strip value)
                     && endswith rbrace (strip value) then 1 else 0).
    assert (Hgoal : exists v,
      match parse_list (strip value) start with
      | Some (result, _) => Some (VList result)
      | None => None
      end = Some v /\
      match parse_list_limited limit (strip value) start with
      | Some (inr (result, _)) => Some (inr (VList result))
      | Some (inl e) => Some (inl e)
      | None => None
      end
      = if (match call_depth_loop (S (String.length (strip value)))
                    (strip value) start with
            | Some (nested_depth, _) => S nested_depth
            | None => 0
            end <=? limit)%nat
        then Some (inr v) else Some (inl RecursionError)).
    { destruct (call_depth_loop_total (S (String.length (strip value)))
                  (strip value) start) as (d & j & Hd & _); [lia |].
      rewrite Hd. unfold parse_list, parse_list_limited.
      destruct limit as [| depth].
      - destruct (parse_list_loop_limited_spec _ 0 _ _ [] [] _ _ Hd)
          as (r & -> & _).
        exists (VList r). split; reflexivity.
      - destruct (parse_list_loop_limited_spec _ depth _ _ [] [] _ _ Hd)
          as (r & -> & ->).
        exists (VList r). split; [reflexivity |].
        change (S d <=? S depth)%nat with (d <=? depth)%nat.
        destruct (d <=? depth)%nat; reflexivity. }
    subst start.
    destruct (startswith lbrace (strip value)
              && endswith rbrace (strip value)); exact Hgoal.
  - intros fuel s i result current Hget.
    cbn [parse_list_loop_limited]. rewrite Hget.
    apply get_some_lt in Hget.
    destruct (Nat.ltb_spec i (String.length s)); [reflexivity | lia].
  - intros s s' start r j Hlen Hagree H. unfold parse_list in *.
    rewrite <- Hlen.
    now apply (parse_list_loop_prefix _ s s' start j [] [] r j Hlen Hagree).
Qed.

(** Where the interpreter allows a thousand calls of [parse_list], a
    thousand opening braces raise [RecursionError]; and whatever the
    interpreter allows, some text raises. *)
Lemma parse_value_recursion_counterexample :
  tcl_value2python_value_limited 1000 (lbraces 1000)
  = Some (inl RecursionError)
  /\ forall limit : nat,
       ~ (forall value : string,
            exists v, tcl_value2python_value_limited limit value
                      = Some (inr v)).
Proof.
  split.
  - apply tcl_value2python_value_limited_lbraces; lia.
  - intros limit H. destruct (H (lbraces (S limit))) as [v Hv].
    rewrite tcl_value2python_value_limited_lbraces in Hv by lia.
    discriminate.
Qed.
